(** * Eurostat API client: a shallow embedding of [eurostat-api.ts]

    The development follows the TypeScript module function by function:
    the rate-limited fetch primitive, the table-of-contents cache and
    dataset search, the SDMX structure decoder, the JSON-stat data decoder
    with its table formatter, and the geo code resolver.

    Conventions of the embedding.
    - A JavaScript string is the list of its UTF-16 code units ([jsstring]).
    - A JavaScript number used as a count, index, size or timestamp is an
      integer, a [Z], below the range where doubles stop being exact; the
      numbers of a data cube are kept abstract ([num]).
    - [undefined] / [null] results are [None]; a thrown [Error] is [inl msg].
    - Module-level [let] variables are the fields of the record [State];
      [Date.now()] readings and HTTP responses are supplied by the caller of
      the model (sequential model, explicit clock).
    - Functions of the JavaScript host whose tables are not part of the
      repository (case mapping, Unicode normalisation, the regular
      expression engine, number printing, the members that every object
      inherits) are the fields of [JsHost]. *)

From Stdlib Require Import ZArith Lia Sorting.Sorted Sorting.Permutation.
From stdpp Require Import base list gmap strings pretty sorting.

Local Open Scope Z_scope.

(** ** Strings *)

Definition jsstring : Type := list N.

(** An ASCII literal as a JavaScript string. *)
Definition str (s : string) : jsstring :=
  map Ascii.N_of_ascii (String.list_ascii_of_string s).

(** [String(i)] for a non-negative integer [i]. *)
Definition String_of_nat (i : nat) : jsstring := str (pretty i).

(** [s.length === 0], the falsiness test of a string. *)
Definition is_empty (s : jsstring) : bool :=
  match s with [] => true | _ => false end.

(** [a || b] on strings: the empty string is falsy. *)
Definition str_or (a b : jsstring) : jsstring :=
  if is_empty a then b else a.

(** [a || b] where [a] may be [undefined]. *)
Definition opt_str_or (a : option jsstring) (b : jsstring) : jsstring :=
  match a with Some s => str_or s b | None => b end.

(** [a || undefined]. *)
Definition str_or_undefined (a : option jsstring) : option jsstring :=
  match a with
  | Some s => if is_empty s then None else Some s
  | None => None
  end.

Definition jsstring_eqb (a b : jsstring) : bool := bool_decide (a = b).

(** [s.startsWith(p)]. *)
Fixpoint startsWith (s p : jsstring) {struct p} : bool :=
  match p, s with
  | [], _ => true
  | _ :: _, [] => false
  | c :: p', d :: s' => N.eqb c d && startsWith s' p'
  end.

(** [s.includes(t)]: [t] occurs in [s] as a contiguous run of code units. *)
Fixpoint includes (s t : jsstring) : bool :=
  startsWith s t ||
  match s with
  | [] => false
  | _ :: s' => includes s' t
  end.

(** [parts.join(sep)]. *)
Fixpoint join (sep : jsstring) (parts : list jsstring) : jsstring :=
  match parts with
  | [] => []
  | [p] => p
  | p :: rest => p ++ sep ++ join sep rest
  end.

(** [s.repeat(n)]. *)
Fixpoint repeat_str (s : jsstring) (n : nat) : jsstring :=
  match n with
  | O => []
  | S n' => s ++ repeat_str s n'
  end.

(** The class [\s] of a JavaScript regular expression. *)
Definition is_whitespace (c : N) : bool :=
  ((9 <=? c) && (c <=? 13) || (c =? 32) || (c =? 160) || (c =? 5760)
   || (8192 <=? c) && (c <=? 8202) || (c =? 8232) || (c =? 8233)
   || (c =? 8239) || (c =? 8287) || (c =? 12288) || (c =? 65279))%N.

(** [s.split(/\s+/)]: the pieces between maximal runs of whitespace; a
    leading or trailing run leaves an empty piece. [cur] is the piece being
    read, reversed; [in_ws] tells that the previous unit was whitespace. *)
Fixpoint split_ws_go (in_ws : bool) (cur : jsstring) (s : jsstring)
  : list jsstring :=
  match s with
  | [] => [rev cur]
  | c :: s' =>
      if is_whitespace c then
        if in_ws then split_ws_go true [] s'
        else rev cur :: split_ws_go true [] s'
      else split_ws_go false (c :: cur) s'
  end.

Definition split_ws (s : jsstring) : list jsstring := split_ws_go false [] s.

(** [s.split(sep)] for a one-unit separator such as a newline or a tab. *)
Fixpoint split_on_go (sep : N) (cur : jsstring) (s : jsstring)
  : list jsstring :=
  match s with
  | [] => [rev cur]
  | c :: s' =>
      if N.eqb c sep then rev cur :: split_on_go sep [] s'
      else split_on_go sep (c :: cur) s'
  end.

Definition split_on (sep : N) (s : jsstring) : list jsstring :=
  split_on_go sep [] s.

(** [s.trim()]: white space and line terminators, which [is_whitespace]
    already covers, are removed at both ends. *)
Fixpoint trim_start (s : jsstring) : jsstring :=
  match s with
  | c :: s' => if is_whitespace c then trim_start s' else s
  | [] => []
  end.

Definition trim (s : jsstring) : jsstring :=
  rev (trim_start (rev (trim_start s))).

(** [.filter(Boolean)] on an array of strings. *)
Definition filter_Boolean (l : list jsstring) : list jsstring :=
  filter (fun s => is_empty s = false) l.

(** ** Arrays *)

(** [l.slice(0, e)]: a negative [e] counts from the end of the array. *)
Definition slice0 {A} (e : Z) (l : list A) : list A :=
  if e <? 0 then take (Z.to_nat (Z.of_nat (length l) + e)) l
  else take (Z.to_nat e) l.

(** [Array.prototype.sort(cmp)] is stable. [before a b] says that the
    comparator does not put [b] strictly first ([cmp(a, b) <= 0]); an
    element is inserted in front of the first one it may precede. *)
Fixpoint sort_insert {A} (before : A -> A -> bool) (x : A) (l : list A)
  : list A :=
  match l with
  | [] => [x]
  | y :: l' => if before x y then x :: y :: l'
               else y :: sort_insert before x l'
  end.

Definition stable_sort {A} (before : A -> A -> bool) (l : list A) : list A :=
  foldr (sort_insert before) [] l.

(** ** The JavaScript host *)

Class JsHost := {
  (** the numbers of a JSON document *)
  num : Type;
  (** [String(n)], as used by a template literal *)
  num_to_string : num -> jsstring;
  (** [String.prototype.toLowerCase] *)
  toLowerCase : jsstring -> jsstring;
  (** [String.prototype.toUpperCase] *)
  toUpperCase : jsstring -> jsstring;
  (** [s.normalize("NFD")] *)
  normalizeNFD : jsstring -> jsstring;
  (** first match of [/<c:Name xml:lang="en">([^<]+)<\/c:Name>/]: group 1 *)
  titleRegex_match : jsstring -> option jsstring;
  (** all matches of [dimRegex], in document order: groups 1 and 2 *)
  dimRegex_matches : jsstring -> list (jsstring * jsstring);
  (** first match of [timeDimRegex]: group 1 *)
  timeDimRegex_match : jsstring -> option jsstring;
  (** all matches of [clRegex], in document order: groups 1 and 2 *)
  clRegex_matches : jsstring -> list (jsstring * jsstring);
  (** all matches of [codeRegex], in document order: groups 1 and 2 *)
  codeRegex_matches : jsstring -> list (jsstring * jsstring);
  (** [new RegExp] of the [conceptRegex] pattern built for a dimension id:
      [inr] of its [exec], the first match in a text, group 1; [inl] of the
      message of the [SyntaxError] that [new RegExp] throws when the id,
      which is spliced in as it is, does not make a valid pattern *)
  conceptRegex : jsstring -> jsstring + (jsstring -> option jsstring);
  (** the member that every object inherits under a key, such as
      [constructor] or [toString], as the text that printing it gives;
      [None] for a key that names no such member. A member is a function or
      an object, so it counts as true and its text is not empty. *)
  inherited_member : jsstring -> option jsstring;
}.

Section Client.

Context `{JsHost}.

(** ** Shared state and environment *)

Record TocEntry := {
  toc_code : jsstring;
  toc_title : jsstring;
  toc_type : jsstring;
  toc_lastUpdate : option jsstring;
  toc_dataStart : option jsstring;
  toc_dataEnd : option jsstring;
  toc_values : option jsstring;
}.

Inductive Level := country | nuts1 | nuts2 | nuts3 | aggregate | other.

Record GeoCode := {
  geo_code : jsstring;
  geo_name : jsstring;
  geo_level : Level;
}.

(** The module-level variables. *)
Record State := {
  lastRequestTime : Z;
  cachedToc : option (list TocEntry);
  tocCachedAt : Z;
  cachedGeoCodes : option (list GeoCode);
  geoCodesCachedAt : Z;
}.

(** A [Response] as far as the client reads it. *)
Record Response := {
  res_ok : bool;
  res_status : Z;
  res_statusText : jsstring;
  res_text : jsstring;
}.

(** The clock readings of one call of [rateLimitedFetch]: [tick_now] is the
    first [Date.now()]; [tick_lag] is the time that passes between the two
    readings beyond the delay asked of [setTimeout]. *)
Record Tick := {
  tick_now : Z;
  tick_lag : Z;
}.

(** What one call of an exported function observes of the world:
    [Date.now()] at its entry, the clock of the fetch it may issue, and the
    response the network gives for a URL. *)
Record Env := {
  env_now : Z;
  env_tick : Tick;
  env_http : jsstring -> Response;
}.

Definition BASE_URL : jsstring :=
  str "https://ec.europa.eu/eurostat/api/dissemination".
Definition STATISTICS_URL : jsstring := BASE_URL ++ str "/statistics/1.0/data".
Definition SDMX_URL : jsstring := BASE_URL ++ str "/sdmx/2.1".
Definition CATALOGUE_URL : jsstring := BASE_URL ++ str "/catalogue".

Definition MIN_REQUEST_INTERVAL_MS : Z := 350.
Definition TOC_CACHE_DURATION_MS : Z := 60 * 60 * 1000.

(** ** rateLimitedFetch *)

(** The delay handed to [setTimeout]; [0] when the call does not wait. *)
Definition rate_delay (last : Z) (tk : Tick) : Z :=
  let elapsed := tick_now tk - last in
  if elapsed <? MIN_REQUEST_INTERVAL_MS
  then MIN_REQUEST_INTERVAL_MS - elapsed
  else 0.

(** The second [Date.now()], stored in [lastRequestTime] before [fetch]. *)
Definition rate_dispatch (last : Z) (tk : Tick) : Z :=
  tick_now tk + rate_delay last tk + tick_lag tk.

Definition set_lastRequestTime (t : Z) (st : State) : State :=
  {| lastRequestTime := t;
     cachedToc := cachedToc st;
     tocCachedAt := tocCachedAt st;
     cachedGeoCodes := cachedGeoCodes st;
     geoCodesCachedAt := geoCodesCachedAt st |}.

Definition rateLimitedFetch (url : jsstring) (env : Env) (st : State)
  : Response * State :=
  let t := rate_dispatch (lastRequestTime st) (env_tick env) in
  (env_http env url, set_lastRequestTime t st).

(** The values taken by [lastRequestTime] along a sequence of calls, each
    with its URL and its view of the world. *)
Fixpoint dispatch_log (calls : list (jsstring * Env)) (st : State) : list Z :=
  match calls with
  | [] => []
  | (url, env) :: rest =>
      let st' := snd (rateLimitedFetch url env st) in
      lastRequestTime st' :: dispatch_log rest st'
  end.

(** ** fetchToc and searchDatasets *)

(** One data line of the catalogue; [None] when it has fewer than two
    columns. *)
Definition parseTocLine (line : jsstring) : option TocEntry :=
  let parts := split_on 9 line in
  if (2 <=? length parts)%nat then
    Some {| toc_title := opt_str_or (parts !! 0%nat) [];
            toc_code := opt_str_or (parts !! 1%nat) [];
            toc_type := opt_str_or (parts !! 2%nat) [];
            toc_lastUpdate := str_or_undefined (parts !! 3%nat);
            toc_dataStart := str_or_undefined (parts !! 5%nat);
            toc_dataEnd := str_or_undefined (parts !! 6%nat);
            toc_values := str_or_undefined (parts !! 7%nat) |}
  else None.

(** The loop over [lines], from index 1. *)
Fixpoint parseTocLines (lines : list jsstring) : list TocEntry :=
  match lines with
  | [] => []
  | l :: rest =>
      let line := trim l in
      if is_empty line then parseTocLines rest
      else match parseTocLine line with
           | Some e => e :: parseTocLines rest
           | None => parseTocLines rest
           end
  end.

Definition parseToc (text : jsstring) : list TocEntry :=
  parseTocLines (drop 1 (split_on 10 text)).

Definition set_toc (entries : list TocEntry) (now : Z) (st : State) : State :=
  {| lastRequestTime := lastRequestTime st;
     cachedToc := Some entries;
     tocCachedAt := now;
     cachedGeoCodes := cachedGeoCodes st;
     geoCodesCachedAt := geoCodesCachedAt st |}.

Definition toc_url (lang : jsstring) : jsstring :=
  CATALOGUE_URL ++ str "/toc/txt?lang=" ++ lang.

(** The cache test of [fetchToc]. *)
Definition toc_is_fresh (now : Z) (st : State) : bool :=
  match cachedToc st with
  | Some _ => now - tocCachedAt st <? TOC_CACHE_DURATION_MS
  | None => false
  end.

(** The path of [fetchToc] below the cache test. *)
Definition fetchToc_refresh (lang : jsstring) (env : Env) (st : State)
  : (jsstring + list TocEntry) * State :=
  let '(res, st1) := rateLimitedFetch (toc_url lang) env st in
  if negb (res_ok res) then
    (inl (str "Failed to fetch TOC: " ++ str (pretty (res_status res))
          ++ str " " ++ res_statusText res), st1)
  else
    let entries := parseToc (res_text res) in
    (inr entries, set_toc entries (env_now env) st1).

Definition fetchToc (lang : jsstring) (env : Env) (st : State)
  : (jsstring + list TocEntry) * State :=
  let now := env_now env in
  match cachedToc st with
  | Some toc =>
      if now - tocCachedAt st <? TOC_CACHE_DURATION_MS then (inr toc, st)
      else fetchToc_refresh lang env st
  | None => fetchToc_refresh lang env st
  end.

(** The body of the [.map] callback: the score of one entry. *)
Definition score_entry (terms : list jsstring) (lowerQuery : jsstring)
    (entry : TocEntry) : Z :=
  let searchable := toLowerCase (toc_title entry ++ str " " ++ toc_code entry) in
  let score :=
    foldl (fun sc term => if includes searchable term then sc + 1 else sc)
          0 terms in
  if jsstring_eqb (toLowerCase (toc_code entry)) lowerQuery
  then score + 100 else score.

Definition query_terms (query : jsstring) : list jsstring :=
  filter_Boolean (split_ws (toLowerCase query)).

(** The pipeline [map / filter / sort / slice / map] over a catalogue. *)
Definition rank_entries (toc : list TocEntry) (query : jsstring) (limit : Z)
  : list TocEntry :=
  let lowerQuery := toLowerCase query in
  let terms := filter_Boolean (split_ws lowerQuery) in
  let scored := map (fun entry => (entry, score_entry terms lowerQuery entry)) toc in
  let kept := filter (fun item => 0 < snd item) scored in
  let sorted := stable_sort (fun a b => snd b <=? snd a) kept in
  map fst (slice0 limit sorted).

Definition searchDatasets (query lang : jsstring) (limit : Z) (env : Env)
    (st : State) : (jsstring + list TocEntry) * State :=
  match fetchToc lang env st with
  | (inl err, st') => (inl err, st')
  | (inr toc, st') => (inr (rank_entries toc query limit), st')
  end.

(** ** getDatasetStructure *)

Record CodeItem := {
  ci_id : jsstring;
  ci_name : jsstring;
}.

Record DatasetDimension := {
  dd_id : jsstring;
  dd_name : jsstring;
  dd_values : list CodeItem;
}.

Record DatasetStructure := {
  ds_datasetCode : jsstring;
  ds_title : jsstring;
  ds_dimensions : list DatasetDimension;
}.

(** A JavaScript [Map] with string keys: the entries in insertion order.
    [Map_set] on a key already present replaces the value in place. *)
Fixpoint Map_set {V} (k : jsstring) (v : V) (m : list (jsstring * V))
  : list (jsstring * V) :=
  match m with
  | [] => [(k, v)]
  | (k', v') :: m' =>
      if jsstring_eqb k' k then (k, v) :: m'
      else (k', v') :: Map_set k v m'
  end.

Fixpoint Map_get {V} (k : jsstring) (m : list (jsstring * V)) : option V :=
  match m with
  | [] => None
  | (k', v') :: m' => if jsstring_eqb k' k then Some v' else Map_get k m'
  end.

(** The [while] loop over the matches of [dimRegex]. *)
Definition build_dimCodelistMap (xml : jsstring) : list (jsstring * jsstring) :=
  foldl (fun m dimMatch => Map_set (fst dimMatch) (snd dimMatch) m)
        [] (dimRegex_matches xml).

(** The [while] loop over the matches of [clRegex], with the inner loop
    over the matches of [codeRegex] in the content of each codelist. *)
Definition build_codelistMap (xml : jsstring)
  : list (jsstring * list CodeItem) :=
  foldl (fun m clMatch =>
           let codes :=
             map (fun codeMatch => {| ci_id := fst codeMatch;
                                      ci_name := snd codeMatch |})
                 (codeRegex_matches (snd clMatch)) in
           Map_set (fst clMatch) codes m)
        [] (clRegex_matches xml).

Definition time_hint : CodeItem :=
  {| ci_id := str "hint";
     ci_name := str "Use sinceTimePeriod/untilTimePeriod or specific years like 2020, 2021" |}.

(** One turn of the loop over [dimCodelistMap]: the dimension that it
    pushes, or the message of the error that [new RegExp] throws. *)
Definition build_dimension (xml : jsstring)
    (codelistMap : list (jsstring * list CodeItem))
    (entry : jsstring * jsstring) : jsstring + DatasetDimension :=
  let '(dimId, clId) := entry in
  let values := default [] (Map_get clId codelistMap) in
  match conceptRegex dimId with
  | inl err => inl err
  | inr conceptRegex_exec =>
      inr {| dd_id := dimId;
             dd_name := default dimId (conceptRegex_exec xml);
             dd_values := slice0 200 values |}
  end.

(** A [for ... of] loop that pushes one element in each turn and ends at
    the first turn that throws. *)
Fixpoint push_each {A B} (turn : A -> jsstring + B) (l : list A)
  : jsstring + list B :=
  match l with
  | [] => inr []
  | x :: l' =>
      match turn x with
      | inl err => inl err
      | inr y =>
          match push_each turn l' with
          | inl err => inl err
          | inr ys => inr (y :: ys)
          end
      end
  end.

(** The array [dimensions] at the [return], or the error thrown on the
    way. *)
Definition build_dimensions (xml : jsstring)
  : jsstring + list DatasetDimension :=
  let dimCodelistMap := build_dimCodelistMap xml in
  let codelistMap := build_codelistMap xml in
  match push_each (build_dimension xml codelistMap) dimCodelistMap with
  | inl err => inl err
  | inr dimensions =>
      match timeDimRegex_match xml with
      | Some timeId =>
          inr (dimensions ++ [ {| dd_id := timeId;
                                  dd_name := str "Time period";
                                  dd_values := [time_hint] |} ])
      | None => inr dimensions
      end
  end.

Definition structure_url (datasetCode : jsstring) : jsstring :=
  SDMX_URL ++ str "/dataflow/ESTAT/" ++ toUpperCase datasetCode
  ++ str "/1.0?references=descendants&detail=referencepartial&compressed=false".

Definition getDatasetStructure (datasetCode : jsstring) (env : Env)
    (st : State) : (jsstring + DatasetStructure) * State :=
  let '(res, st1) := rateLimitedFetch (structure_url datasetCode) env st in
  if negb (res_ok res) then
    (inl (str "Failed to fetch dataset structure for " ++ datasetCode
          ++ str ": " ++ str (pretty (res_status res)) ++ str " "
          ++ res_statusText res), st1)
  else
    let xml := res_text res in
    match build_dimensions xml with
    | inl err => (inl err, st1)
    | inr dimensions =>
        (inr {| ds_datasetCode := toUpperCase datasetCode;
                ds_title := default datasetCode (titleRegex_match xml);
                ds_dimensions := dimensions |}, st1)
    end.

(** ** resolveGeoCode *)

(** The [if / else if] chain that sets [level]. *)
Definition level_of_code (code : jsstring) : Level :=
  if (length code =? 2)%nat then country
  else if (length code =? 3)%nat then nuts1
  else if (length code =? 4)%nat then nuts2
  else if (length code =? 5)%nat then nuts3
  else if startsWith code (str "EU") || startsWith code (str "EA")
       then aggregate
  else other.

(** The string stored in the field [level]. *)
Definition level_name (l : Level) : jsstring :=
  match l with
  | country => str "country"
  | nuts1 => str "nuts1"
  | nuts2 => str "nuts2"
  | nuts3 => str "nuts3"
  | aggregate => str "aggregate"
  | other => str "other"
  end.

Definition parseGeoCodes (xml : jsstring) : list GeoCode :=
  map (fun m => {| geo_code := fst m;
                   geo_name := snd m;
                   geo_level := level_of_code (fst m) |})
      (codeRegex_matches xml).

(** The [.replace] of [normalize]: the units U+0300 to U+036F are removed. *)
Definition strip_combining_marks (s : jsstring) : jsstring :=
  filter (fun c => ~ (768 <= c <= 879)%N) s.

(** The local function [normalize] of [fuzzyMatch]. *)
Definition normalize (s : jsstring) : jsstring :=
  strip_combining_marks (normalizeNFD (toLowerCase s)).

Definition fuzzyMatch (text query : jsstring) : bool :=
  includes (normalize text) (normalize query).

(** The callback of [cachedGeoCodes.filter]. *)
Definition geo_matches (query : jsstring) (gc : GeoCode) : bool :=
  let lowerQuery := toLowerCase query in
  jsstring_eqb (toLowerCase (geo_code gc)) lowerQuery
  || includes (toLowerCase (geo_name gc)) lowerQuery
  || fuzzyMatch (geo_name gc) query.

(** The part of [resolveGeoCode] that follows the refresh. *)
Definition resolve_in (cached : list GeoCode) (query : jsstring)
  : list GeoCode :=
  slice0 20 (filter (fun gc => geo_matches query gc = true) cached).

Definition set_geo (codes : list GeoCode) (now : Z) (st : State) : State :=
  {| lastRequestTime := lastRequestTime st;
     cachedToc := cachedToc st;
     tocCachedAt := tocCachedAt st;
     cachedGeoCodes := Some codes;
     geoCodesCachedAt := now |}.

Definition geo_url : jsstring :=
  SDMX_URL ++ str "/codelist/ESTAT/GEO/latest?compressed=false".

(** The body of the [if] that refreshes the code list, followed by the
    filter over the new list. *)
Definition resolveGeoCode_refresh (query : jsstring) (env : Env) (st : State)
  : (jsstring + list GeoCode) * State :=
  let '(res, st1) := rateLimitedFetch geo_url env st in
  if res_ok res then
    let codes := parseGeoCodes (res_text res) in
    (inr (resolve_in codes query), set_geo codes (env_now env) st1)
  else
    (inl (str "Failed to fetch GEO codelist: "
          ++ str (pretty (res_status res))), st1).

Definition resolveGeoCode (query : jsstring) (env : Env) (st : State)
  : (jsstring + list GeoCode) * State :=
  let now := env_now env in
  match cachedGeoCodes st with
  | None => resolveGeoCode_refresh query env st
  | Some cached =>
      if TOC_CACHE_DURATION_MS <? now - geoCodesCachedAt st
      then resolveGeoCode_refresh query env st
      else (inr (resolve_in cached query), st)
  end.

(** ** getDatasetData *)

(** The JSON-stat document returned by [res.json()]. A member that the
    client reads as [x || {}] or [x || []] is given as the empty object or
    array when it is missing. The member [index] of a category is given as
    [Object.entries] enumerates it; a [null] cell of [value] is [Some None].
    The maps hold the own keys of the objects. The client reads a label
    with [labelMap[catId]], which also answers a key that the object
    inherits: [read_label] adds these. A dimension read under an inherited
    key has no [category] and no [label], as a missing one. *)
Record JsonDimension := {
  jd_label : option jsstring;
  jd_index : list (jsstring * Z);
  jd_labels : gmap jsstring jsstring;
}.

Record JsonStat := {
  js_label : option jsstring;
  js_source : option jsstring;
  js_updated : option jsstring;
  js_id : list jsstring;
  js_size : list Z;
  js_dimension : gmap jsstring JsonDimension;
  js_value : gmap jsstring (option num);
}.

Record Category := {
  cat_id : jsstring;
  cat_label : jsstring;
}.

Record ResultDimension := {
  rd_id : jsstring;
  rd_label : jsstring;
  rd_categories : list Category;
}.

Record EurostatDataResult := {
  r_title : jsstring;
  r_source : jsstring;
  r_updated : jsstring;
  r_dimensions : list ResultDimension;
  r_values : list (option num);
  r_formattedData : jsstring;
}.

Definition empty_dimension : JsonDimension :=
  {| jd_label := None; jd_index := []; jd_labels := ∅ |}.

(** [labelMap[catId] || catId]: the own label unless it is empty, else the
    member that the object inherits under that key, else the id. An
    inherited member is not a string; the label holds the text that the
    table and the tools print for it. *)
Definition read_label (labelMap : gmap jsstring jsstring) (catId : jsstring)
  : jsstring :=
  match labelMap !! catId with
  | Some label => str_or label catId
  | None => default catId (inherited_member catId)
  end.

(** The callback of [dimIds.map]. *)
Definition decode_dimension (dimensionsData : gmap jsstring JsonDimension)
    (dimId : jsstring) : ResultDimension :=
  let dim := default empty_dimension (dimensionsData !! dimId) in
  let sortedEntries :=
    stable_sort (fun a b => snd a <=? snd b) (jd_index dim) in
  {| rd_id := dimId;
     rd_label := opt_str_or (jd_label dim) dimId;
     rd_categories :=
       map (fun e => {| cat_id := fst e;
                        cat_label := read_label (jd_labels dim) (fst e) |})
           sortedEntries |}.

(** [dimSizes.reduce((a, b) => a * b, 1)]. *)
Definition product (sizes : list Z) : Z := foldl Z.mul 1 sizes.

(** The loop that fills [values]. *)
Definition dense_values (rawValues : gmap jsstring (option num))
    (totalSize : Z) : list (option num) :=
  map (fun i => match rawValues !! String_of_nat i with
                | Some v => v
                | None => None
                end)
      (seq 0 (Z.to_nat totalSize)).

(** *** formatJsonStatData *)

(** [a % b] and [Math.floor(a / b)] on integers. [None] stands for a result
    that is not a finite number, [NaN] or an infinity: once the remainder
    is one of these, every index computed from it is [NaN]. An operand
    [None] is also the [undefined] read past the end of [sizes]. *)
Definition js_rem (a b : option Z) : option Z :=
  match a, b with
  | Some x, Some y => if y =? 0 then None else Some (Z.rem x y)
  | _, _ => None
  end.

Definition js_floor_div (a b : option Z) : option Z :=
  match a, b with
  | Some x, Some y => if y =? 0 then None else Some (x / y)
  | _, _ => None
  end.

(** The inner loop [for (d = dimensions.length - 1; d >= 0; d--)]: [n] is
    [d + 1], and [indices.unshift] conses. *)
Fixpoint decode_loop (n : nat) (sizes : list Z) (remainder : option Z)
    (indices : list (option Z)) : list (option Z) :=
  match n with
  | O => indices
  | S d =>
      decode_loop d sizes (js_floor_div remainder (sizes !! d))
                  (js_rem remainder (sizes !! d) :: indices)
  end.

Definition decode_indices (ndims : nat) (sizes : list Z) (i : Z)
  : list (option Z) :=
  decode_loop ndims sizes (Some i) [].

(** [String(idx)] for an index, [NaN] included. *)
Definition index_to_string (idx : option Z) : jsstring :=
  match idx with
  | Some z => str (pretty z)
  | None => str "NaN"
  end.

(** [arr[idx]] for a numeric index. *)
Definition array_get {A} (l : list A) (idx : option Z) : option A :=
  match idx with
  | Some z => if z <? 0 then None else l !! Z.to_nat z
  | None => None
  end.

(** The callback of [indices.map]: the label of dimension [d]. *)
Definition index_label (dimensions : list ResultDimension) (d : nat)
    (idx : option Z) : jsstring :=
  match array_get (default [] (rd_categories <$> dimensions !! d)) idx with
  | Some cat => cat_label cat
  | None => str "[" ++ index_to_string idx ++ str "]"
  end.

(** The line pushed for position [i] holding [v]. *)
Definition format_row (dimensions : list ResultDimension) (sizes : list Z)
    (i : nat) (v : num) : jsstring :=
  let indices := decode_indices (length dimensions) sizes (Z.of_nat i) in
  let labels := imap (index_label dimensions) indices in
  join (str " | ") labels ++ str " | " ++ num_to_string v.

(** The outer loop [for (i = 0; i < values.length; i++)], from position [i]
    over the remaining values: the lines it pushes. *)
Fixpoint format_rows (dimensions : list ResultDimension) (sizes : list Z)
    (i : nat) (values : list (option num)) : list jsstring :=
  match values with
  | [] => []
  | None :: rest => format_rows dimensions sizes (S i) rest
  | Some v :: rest =>
      format_row dimensions sizes i v
      :: format_rows dimensions sizes (S i) rest
  end.

Definition format_header (dimensions : list ResultDimension) : jsstring :=
  join (str " | ") (map rd_label dimensions) ++ str " | Value".

(** The array [lines] at the [return]; [None] on the early return. *)
Definition format_lines (dimensions : list ResultDimension) (sizes : list Z)
    (values : list (option num)) : option (list jsstring) :=
  if (length dimensions =? 0)%nat || (length values =? 0)%nat then None
  else
    let header := format_header dimensions in
    Some (header :: repeat_str (str "-") (length header)
                 :: format_rows dimensions sizes 0 values).

Definition formatJsonStatData (dimensions : list ResultDimension)
    (sizes : list Z) (values : list (option num)) : jsstring :=
  match format_lines dimensions sizes values with
  | None => str "No data available."
  | Some lines => join [10%N] lines
  end.

(** The decoding of a successful response: [getDatasetData] from
    [res.json()] to its [return]. *)
Definition decodeJsonStat (datasetCode : jsstring) (json : JsonStat)
  : EurostatDataResult :=
  let dimIds := js_id json in
  let dimSizes := js_size json in
  let dimensions := map (decode_dimension (js_dimension json)) dimIds in
  let totalSize := product dimSizes in
  let values := dense_values (js_value json) totalSize in
  {| r_title := opt_str_or (js_label json) datasetCode;
     r_source := opt_str_or (js_source json) (str "Eurostat");
     r_updated := opt_str_or (js_updated json) [];
     r_dimensions := dimensions;
     r_values := values;
     r_formattedData := formatJsonStatData dimensions dimSizes values |}.

(** *** Re-encoding of a multi-index *)

(** The re-encoding named by the specification, which the client does not
    compute: the sum over [d] of [idx[d]] times the product of [s[d+1:]]. *)
Fixpoint encode_index (s : list Z) (idx : list Z) : Z :=
  match s, idx with
  | _ :: s', i :: idx' => i * product s' + encode_index s' idx'
  | _, _ => 0
  end.

End Client.

(** * Vocabulary of the statements *)

(** An array with the position of each element, counted from [n]. *)
Fixpoint index_from {A} (n : nat) (l : list A) : list (nat * A) :=
  match l with
  | [] => []
  | x :: l' => (n, x) :: index_from (S n) l'
  end.

(** Descending key, and ascending position among equal keys. *)
Definition ranked {A} (key : A -> Z) (pos : A -> nat) (x y : A) : Prop :=
  key y < key x \/ (key x = key y /\ (pos x < pos y)%nat).

(** The comparator [(a, b) => key(b) - key(a)] as a [before] test. *)
Definition key_desc {A} (key : A -> Z) (x y : A) : bool := key y <=? key x.

(** [t] occurs in [s]. *)
Definition infix_of (t s : jsstring) : Prop :=
  exists pre suf, s = pre ++ t ++ suf.

(** The words of a string: its maximal runs of units that are not white
    space, from left to right. A run ends at the end of the string or in
    front of a white-space unit. *)
Inductive words_of : jsstring -> list jsstring -> Prop :=
  | words_end : words_of [] []
  | words_skip (c : N) (s : jsstring) (l : list jsstring) :
      is_whitespace c = true -> words_of s l -> words_of (c :: s) l
  | words_word (w s : jsstring) (l : list jsstring) :
      w <> [] ->
      Forall (fun c => is_whitespace c = false) w ->
      (forall c s', s = c :: s' -> is_whitespace c = true) ->
      words_of s l -> words_of (w ++ s) (w :: l).

Section ClientVocabulary.

Context `{JsHost}.

(** The score that [searchDatasets] gives to the entry at position [i] of a
    catalogue; [0] past its end. *)
Definition score_at (toc : list TocEntry) (query : jsstring) (i : nat) : Z :=
  match toc !! i with
  | Some e => score_entry (query_terms query) (toLowerCase query) e
  | None => 0
  end.

(** The code of an entry equals the whole query, case aside. *)
Definition exact_code_match (query : jsstring) (e : TocEntry) : Prop :=
  toLowerCase (toc_code e) = toLowerCase query.

(** The score in the words of the specification, which looks for the terms
    in the title followed at once by the code: the searchable text of
    [score_entry] has a space between the two. *)
Definition score_as_specified (query : jsstring) (e : TocEntry) : Z :=
  Z.of_nat (length (filter
     (fun t => includes (toLowerCase (toc_title e ++ toc_code e)) t = true)
     (query_terms query)))
  + (if jsstring_eqb (toLowerCase (toc_code e)) (toLowerCase query)
     then 100 else 0).

(** The cache test of [resolveGeoCode], negated: the cached list is used. *)
Definition geo_is_fresh (now : Z) (st : State) : bool :=
  match cachedGeoCodes st with
  | Some _ => negb (TOC_CACHE_DURATION_MS <? now - geoCodesCachedAt st)
  | None => false
  end.

(** The two caches, snapshots and timestamps, are the same in both states. *)
Definition same_caches (st st' : State) : Prop :=
  cachedToc st' = cachedToc st /\ tocCachedAt st' = tocCachedAt st
  /\ cachedGeoCodes st' = cachedGeoCodes st
  /\ geoCodesCachedAt st' = geoCodesCachedAt st.

End ClientVocabulary.

(** Consecutive timestamps are at least [gap] apart. *)
Definition spaced (gap : Z) (l : list Z) : Prop :=
  forall i a b, l !! i = Some a -> l !! S i = Some b -> a + gap <= b.

(** The positions of an array that hold a value, with the value, in
    position order. *)
Definition present_cells {A} (values : list (option A)) : list (nat * A) :=
  omap (fun p => match snd p with
                 | Some v => Some (fst p, v)
                 | None => None
                 end)
       (index_from 0 values).

(** The distinct elements of a list, each at its first occurrence. *)
Definition first_occurrences (l : list jsstring) : list jsstring :=
  foldl (fun acc k => if bool_decide (k ∈ acc) then acc else acc ++ [k]) [] l.

(** * A host and data for the examples *)

(** Lower case of the letters of Basic Latin and Latin-1. *)
Definition lower_unit (c : N) : N :=
  if ((65 <=? c) && (c <=? 90)
      || (192 <=? c) && (c <=? 222) && negb (c =? 215))%N
  then (c + 32)%N else c.

Definition upper_unit (c : N) : N :=
  if ((97 <=? c) && (c <=? 122)
      || (224 <=? c) && (c <=? 254) && negb (c =? 247))%N
  then (c - 32)%N else c.

(** Canonical decomposition of a few lower-case letters of Latin-1. *)
Definition decompose_unit (c : N) : list N :=
  if (c =? 228)%N then [97; 776]%N        (* a with diaeresis *)
  else if (c =? 246)%N then [111; 776]%N  (* o with diaeresis *)
  else if (c =? 252)%N then [117; 776]%N  (* u with diaeresis *)
  else if (c =? 233)%N then [101; 769]%N  (* e with acute *)
  else if (c =? 232)%N then [101; 768]%N  (* e with grave *)
  else [c].

(** The name of Austria in German, with its O with diaeresis (U+00D6). *)
Definition Oesterreich : jsstring := 214%N :: str "sterreich".

(** A host over integer data whose regular expressions answer with the
    matches of one fixed metadata document. *)
Definition example_host : JsHost := {|
  num := Z;
  num_to_string := fun z => str (pretty z);
  toLowerCase := map lower_unit;
  toUpperCase := map upper_unit;
  normalizeNFD := flat_map decompose_unit;
  titleRegex_match := fun _ => Some (str "Population");
  dimRegex_matches := fun _ => [(str "freq", str "FREQ"); (str "geo", str "GEO")];
  timeDimRegex_match := fun _ => Some (str "TIME_PERIOD");
  clRegex_matches := fun _ => [(str "GEO", str "codes")];
  codeRegex_matches :=
    fun _ => [(str "AT", Oesterreich); (str "DE", str "Germany");
              (str "DE2", str "Bayern"); (str "EU27_2020", str "European Union")];
  conceptRegex := fun _ => inr (fun _ => None);
  inherited_member :=
    fun key => if jsstring_eqb key (str "constructor")
               then Some (str "function Object() { [native code] }")
               else None;
|}.

Definition example_entry (code title : string) : TocEntry :=
  {| toc_code := str code; toc_title := str title; toc_type := str "dataset";
     toc_lastUpdate := None; toc_dataStart := None; toc_dataEnd := None;
     toc_values := None |}.

(** One entry that names the query in its title only, one that does not
    match it, and one whose code is the query. *)
Definition example_toc : list TocEntry :=
  [ example_entry "TPS00001" "Notes on the demo_pop tables";
    example_entry "NAMA_10_GDP" "GDP and main components";
    example_entry "DEMO_POP" "Population" ].

(** A catalogue of one header line and two data lines. *)
Definition example_catalogue : jsstring :=
  str "title" ++ [9%N] ++ str "code" ++ [9%N] ++ str "type" ++ [10%N]
  ++ str "Population" ++ [9%N] ++ str "DEMO_POP" ++ [9%N] ++ str "dataset"
  ++ [10%N]
  ++ str "GDP" ++ [9%N] ++ str "NAMA_10_GDP" ++ [9%N] ++ str "dataset"
  ++ [10%N].

Definition example_tick (now lag : Z) : Tick :=
  {| tick_now := now; tick_lag := lag |}.

(** A world at time [now] whose network answers every request with [res]. *)
Definition example_env (now : Z) (res : Response) : Env :=
  {| env_now := now; env_tick := example_tick now 0; env_http := fun _ => res |}.

Definition response_ok (text : jsstring) : Response :=
  {| res_ok := true; res_status := 200; res_statusText := str "OK";
     res_text := text |}.

Definition response_unavailable : Response :=
  {| res_ok := false; res_status := 503;
     res_statusText := str "Service Unavailable"; res_text := [] |}.

(** The state of a module just loaded. *)
Definition initial_state : State :=
  {| lastRequestTime := 0; cachedToc := None; tocCachedAt := 0;
     cachedGeoCodes := None; geoCodesCachedAt := 0 |}.

Definition austria : GeoCode :=
  {| geo_code := str "AT"; geo_name := Oesterreich; geo_level := country |}.

(** A state whose caches were filled at time 1000. *)
Definition warm_state : State :=
  {| lastRequestTime := 1000;
     cachedToc := Some example_toc; tocCachedAt := 1000;
     cachedGeoCodes := Some [austria];
     geoCodesCachedAt := 1000 |}.

(** A cached catalogue of one entry, title [ab] and code [cd]. *)
Definition short_state : State :=
  {| lastRequestTime := 1000;
     cachedToc := Some [example_entry "cd" "ab"]; tocCachedAt := 1000;
     cachedGeoCodes := None; geoCodesCachedAt := 0 |}.

(** The cube of the end-to-end scenario: [geo] (DE, FR) by [time]
    (2020, 2021, 2022) with the cells 0 and 5. *)
Definition example_geo : JsonDimension :=
  {| jd_label := None;
     jd_index := [(str "FR", 1); (str "DE", 0)];
     jd_labels := {[ str "DE" := str "Germany"; str "FR" := str "France" ]} |}.

Definition example_time : JsonDimension :=
  {| jd_label := None;
     jd_index := [(str "2020", 0); (str "2021", 1); (str "2022", 2)];
     jd_labels := ∅ |}.

Definition example_cube : @JsonStat example_host :=
  {| js_label := None; js_source := None; js_updated := None;
     js_id := [str "geo"; str "time"];
     js_size := [2; 3];
     js_dimension := {[ str "geo" := example_geo; str "time" := example_time ]};
     js_value := {[ str "0" := Some 100; str "5" := Some 142 ]} |}.

(** A response that declares two cells for a dimension of one category. *)
Definition mismatched_cube : @JsonStat example_host :=
  {| js_label := None; js_source := None; js_updated := None;
     js_id := [str "geo"];
     js_size := [2];
     js_dimension :=
       {[ str "geo" := {| jd_label := None; jd_index := [(str "DE", 0)];
                          jd_labels := ∅ |} ]};
     js_value := {[ str "0" := Some 100 ]} |}.

(** A response without dimensions that holds one value. *)
Definition scalar_cube : @JsonStat example_host :=
  {| js_label := None; js_source := None; js_updated := None;
     js_id := []; js_size := []; js_dimension := ∅;
     js_value := {[ str "0" := Some 42 ]} |}.

Definition example_result : @EurostatDataResult example_host :=
  @decodeJsonStat example_host (str "DEMO") example_cube.

(** Three calls of the fetcher, at the clock readings 100, 120 and 2000. *)
Definition example_calls : list (jsstring * Env) :=
  [ (str "a", example_env 100 response_unavailable);
    (str "b", example_env 120 response_unavailable);
    (str "c", example_env 2000 response_unavailable) ].

(** * The rest of the client *)

(** ** Query strings *)

(** The value of one filter: a string or an array of strings. *)
Inductive FilterValue :=
  | One (v : jsstring)
  | Many (vs : list jsstring).

(** The values that a filter contributes, in order. *)
Definition filter_values (value : FilterValue) : list jsstring :=
  match value with
  | One v => [v]
  | Many vs => vs
  end.

(** A [URLSearchParams]: its list of name and value pairs.
    [params.set(k, v)] puts [v] on the first pair named [k] and removes the
    others, or appends the pair when there is none. *)
Fixpoint params_set (k v : jsstring) (params : list (jsstring * jsstring))
  : list (jsstring * jsstring) :=
  match params with
  | [] => [(k, v)]
  | (k', v') :: rest =>
      if jsstring_eqb k' k
      then (k, v) :: filter (fun p => fst p <> k) rest
      else (k', v') :: params_set k v rest
  end.

(** [params.append(k, v)]. *)
Definition params_append (k v : jsstring)
    (params : list (jsstring * jsstring)) : list (jsstring * jsstring) :=
  params ++ [(k, v)].

(** The body of the loop over [Object.entries(filters)] for one entry. *)
Definition append_filter (params : list (jsstring * jsstring))
    (entry : jsstring * FilterValue) : list (jsstring * jsstring) :=
  match snd entry with
  | Many vs => foldl (fun ps v => params_append (fst entry) v ps) params vs
  | One v => params_append (fst entry) v params
  end.

Section Queries.

Context `{JsHost}.

(** The parameters of [getDatasetData] ([format] is "JSON") and of
    [getDatasetUrl] ([format] is "TSV"); [filters] is given as
    [Object.entries] enumerates it. *)
Definition build_params (format lang : jsstring)
    (filters : list (jsstring * FilterValue)) : list (jsstring * jsstring) :=
  let params := params_set (str "format") format [] in
  let params := params_set (str "lang") (toUpperCase lang) params in
  foldl append_filter params filters.

(** The serializer of [URLSearchParams], over the encoder [form_encode]
    that the host applies to each name and each value. *)
Definition params_toString (form_encode : jsstring -> jsstring)
    (params : list (jsstring * jsstring)) : jsstring :=
  join (str "&")
       (map (fun p => form_encode (fst p) ++ str "=" ++ form_encode (snd p))
            params).

Definition dataset_url (form_encode : jsstring -> jsstring)
    (format datasetCode : jsstring) (filters : list (jsstring * FilterValue))
    (lang : jsstring) : jsstring :=
  STATISTICS_URL ++ str "/" ++ toUpperCase datasetCode ++ str "?"
  ++ params_toString form_encode (build_params format lang filters).

Definition getDatasetUrl (form_encode : jsstring -> jsstring)
    (datasetCode : jsstring) (filters : list (jsstring * FilterValue))
    (lang : jsstring) : jsstring :=
  dataset_url form_encode (str "TSV") datasetCode filters lang.

(** ** The request of getDatasetData *)

(** How the [try] block over an error body ends. It reads
    [errorJson.error?.label] and then [errorJson.warning?.label], and
    appends each one that is truthy through a template literal. It
    completes with the labels it appended, or it throws: before anything is
    appended when [JSON.parse] throws, when the body is the JSON [null], or
    when the first label cannot be converted to a string; and after the
    first label is appended when the second cannot be converted. *)
Inductive TryOutcome :=
  | Completed (errorLabel warningLabel : option jsstring)
  | Threw (errorLabel : option jsstring).

(** What the host makes of a response body: [res.json()], which throws on
    a body that is not JSON, and the outcome of the [try] block over an
    error body. *)
Record BodyReader := {
  form_encode : jsstring -> jsstring;
  res_json : jsstring -> jsstring + JsonStat;
  error_labels : jsstring -> TryOutcome;
}.

(** [errorMsg += `: ${label}`] for a label that was appended. *)
Definition append_label (errorMsg : jsstring) (label : option jsstring)
  : jsstring :=
  match label with
  | Some l => errorMsg ++ str ": " ++ l
  | None => errorMsg
  end.

(** [errorMsg] at the [throw]. *)
Definition data_error_message (reader : BodyReader) (status : Z)
    (errorBody : jsstring) : jsstring :=
  let errorMsg := str "Eurostat API error " ++ str (pretty status) in
  match error_labels reader errorBody with
  | Completed errorLabel warningLabel =>
      append_label (append_label errorMsg errorLabel) warningLabel
  | Threw errorLabel =>
      let errorMsg := append_label errorMsg errorLabel in
      if is_empty errorBody then errorMsg
      else errorMsg ++ str ": " ++ take 500 errorBody
  end.

Definition getDatasetData (reader : BodyReader) (datasetCode : jsstring)
    (filters : list (jsstring * FilterValue)) (lang : jsstring) (env : Env)
    (st : State) : (jsstring + EurostatDataResult) * State :=
  let url := dataset_url (form_encode reader) (str "JSON") datasetCode
                         filters lang in
  let '(res, st1) := rateLimitedFetch url env st in
  if negb (res_ok res) then
    (inl (data_error_message reader (res_status res) (res_text res)), st1)
  else
    match res_json reader (res_text res) with
    | inl err => (inl err, st1)
    | inr json => (inr (decodeJsonStat datasetCode json), st1)
    end.

Definition previewData (reader : BodyReader) (datasetCode lang : jsstring)
    (env : Env) (st : State) : (jsstring + EurostatDataResult) * State :=
  getDatasetData reader datasetCode [(str "lastTimePeriod", One (str "1"))]
                 lang env st.

(** ** The handler of get_dataset_data *)

(** [result.values.filter((v) => v !== null).length]. *)
Definition nonNullCount (values : list (option num)) : nat :=
  length (filter (fun v => v <> None) values).

End Queries.

(** ** More data for the examples *)

(** The form encoder of the URL standard on strings without surrogates:
    letters, digits and [*-._] stay, a space becomes [+], and every other
    unit becomes the percent-encoded bytes of its UTF-8 form. *)
Definition hex_digit (d : N) : N :=
  if (d <? 10)%N then (48 + d)%N else (55 + d)%N.

Definition percent_byte (b : N) : list N :=
  [37%N; hex_digit (b / 16); hex_digit (b mod 16)].

Definition utf8_bytes (c : N) : list N :=
  if (c <? 128)%N then [c]
  else if (c <? 2048)%N then [(192 + c / 64)%N; (128 + c mod 64)%N]
  else [(224 + c / 4096)%N; (128 + (c / 64) mod 64)%N; (128 + c mod 64)%N].

Definition form_safe (c : N) : bool :=
  ((48 <=? c) && (c <=? 57) || (65 <=? c) && (c <=? 90)
   || (97 <=? c) && (c <=? 122)
   || (c =? 42) || (c =? 45) || (c =? 46) || (c =? 95))%N.

Definition example_form_encode (s : jsstring) : jsstring :=
  flat_map (fun c => if form_safe c then [c]
                     else if (c =? 32)%N then [43%N]
                     else flat_map percent_byte (utf8_bytes c)) s.


Definition example_filters : list (jsstring * FilterValue) :=
  [ (str "geo", Many [str "DE"; str "FR"]);
    (str "unit", One (str "a&b=c")) ].

(** Three awaited calls, each made 50 ms after the dispatch before it:
    at the clock readings 100, 400 and 750. *)
Definition paced_calls : list (jsstring * Env) :=
  [ (str "a", example_env 100 response_unavailable);
    (str "b", example_env 400 response_unavailable);
    (str "c", example_env 750 response_unavailable) ].


(** * Properties *)

(** ** Mixed-radix indices *)

Lemma foldl_mul_acc (a : Z) (l : list Z) :
  foldl Z.mul a l = a * foldl Z.mul 1 l.
Proof.
  revert a. induction l as [|x l IH]; intros a; simpl.
  - lia.
  - rewrite (IH (a * x)), (IH (1 * x)). lia.
Qed.

Lemma product_nil : product [] = 1.
Proof. reflexivity. Qed.

Lemma product_cons (x : Z) (l : list Z) : product (x :: l) = x * product l.
Proof. unfold product. simpl. rewrite foldl_mul_acc. lia. Qed.

Lemma product_app (a b : list Z) : product (a ++ b) = product a * product b.
Proof.
  induction a as [|x a IH]; simpl.
  - rewrite product_nil. lia.
  - rewrite !product_cons, IH. lia.
Qed.

Lemma product_nonneg (l : list Z) :
  Forall (fun x => 0 <= x) l -> 0 <= product l.
Proof.
  induction 1 as [|x l Hx _ IH].
  - rewrite product_nil. lia.
  - rewrite product_cons. lia.
Qed.

Lemma decode_loop_acc (n : nat) (sizes : list Z) (r : option Z)
    (acc : list (option Z)) :
  decode_loop n sizes r acc = decode_loop n sizes r [] ++ acc.
Proof.
  revert r acc. induction n as [|d IH]; intros r acc; simpl.
  - reflexivity.
  - rewrite IH. rewrite (IH _ [_]). rewrite <- app_assoc. reflexivity.
Qed.

Lemma decode_loop_app (n : nat) (s t : list Z) (r : option Z)
    (acc : list (option Z)) :
  (n <= length s)%nat ->
  decode_loop n (s ++ t) r acc = decode_loop n s r acc.
Proof.
  revert r acc. induction n as [|d IH]; intros r acc Hn; simpl.
  - reflexivity.
  - rewrite lookup_app_l by lia. apply IH. lia.
Qed.

Lemma encode_index_snoc (s idx : list Z) (x j : Z) :
  length s = length idx ->
  encode_index (s ++ [x]) (idx ++ [j]) = encode_index s idx * x + j.
Proof.
  revert idx. induction s as [|y s IH]; intros [|i idx] Hlen;
    simpl in Hlen; try discriminate.
  - simpl. rewrite product_nil. lia.
  - simpl. rewrite IH by lia. rewrite product_app, product_cons, product_nil.
    lia.
Qed.

(** ** The stable sort *)

Section StableSort.

Context {A : Type} (before : A -> A -> bool).

Lemma sort_insert_perm (x : A) (l : list A) :
  Permutation (sort_insert before x l) (x :: l).
Proof.
  induction l as [|y l IH]; simpl.
  - reflexivity.
  - destruct (before x y).
    + reflexivity.
    + rewrite IH. apply perm_swap.
Qed.

Lemma stable_sort_perm (l : list A) : Permutation (stable_sort before l) l.
Proof.
  induction l as [|x l IH]; simpl.
  - reflexivity.
  - rewrite sort_insert_perm. constructor. exact IH.
Qed.

Lemma stable_sort_length (l : list A) :
  length (stable_sort before l) = length l.
Proof. apply Permutation_length, stable_sort_perm. Qed.

(** Sorting commutes with a projection that the comparator factors
    through. *)
Lemma sort_insert_map {B : Type} (f : A -> B) (before' : B -> B -> bool)
    (x : A) (l : list A) :
  (forall a b, before' (f a) (f b) = before a b) ->
  sort_insert before' (f x) (map f l) = map f (sort_insert before x l).
Proof.
  intros Hf. induction l as [|y l IH]; simpl.
  - reflexivity.
  - rewrite Hf. destruct (before x y); simpl; [reflexivity|].
    rewrite IH. reflexivity.
Qed.

Lemma stable_sort_map {B : Type} (f : A -> B) (before' : B -> B -> bool)
    (l : list A) :
  (forall a b, before' (f a) (f b) = before a b) ->
  stable_sort before' (map f l) = map f (stable_sort before l).
Proof.
  intros Hf. induction l as [|x l IH].
  - reflexivity.
  - change (sort_insert before' (f x) (stable_sort before' (map f l))
            = map f (sort_insert before x (stable_sort before l))).
    rewrite IH. apply sort_insert_map, Hf.
Qed.

End StableSort.

Section SortByKey.

(** Elements with a sort key and a position in the array that is sorted. *)
Context {A : Type} (key : A -> Z) (pos : A -> nat).

Lemma sort_insert_ranked (x : A) (l : list A) :
  StronglySorted (ranked key pos) l ->
  Forall (fun y => (pos x < pos y)%nat) l ->
  StronglySorted (ranked key pos) (sort_insert (key_desc key) x l).
Proof.
  induction l as [|y l IH]; intros Hs Hpos; simpl.
  - repeat constructor.
  - apply StronglySorted_inv in Hs as [Hs Hy].
    apply Forall_cons in Hpos as [Hxy Hpos].
    unfold key_desc at 1. destruct (Z.leb_spec (key y) (key x)) as [Hle|Hlt].
    + constructor; [constructor; assumption|].
      constructor.
      * unfold ranked. lia.
      * rewrite Forall_forall in Hy, Hpos |- *. intros z Hz.
        specialize (Hy z Hz). specialize (Hpos z Hz).
        unfold ranked in *. lia.
    + constructor; [apply IH; assumption|].
      rewrite (sort_insert_perm (key_desc key) x l).
      constructor; [unfold ranked; lia | exact Hy].
Qed.

(** The stable sort by descending key of an array listed by ascending
    position is ordered by [ranked]. *)
Lemma stable_sort_ranked (l : list A) :
  StronglySorted (fun x y => (pos x < pos y)%nat) l ->
  StronglySorted (ranked key pos) (stable_sort (key_desc key) l).
Proof.
  induction l as [|x l IH]; intros Hs; simpl.
  - constructor.
  - apply StronglySorted_inv in Hs as [Hs Hx].
    apply sort_insert_ranked; [apply IH, Hs|].
    fold (stable_sort (key_desc key) l). rewrite (stable_sort_perm (key_desc key) l).
    exact Hx.
Qed.

End SortByKey.

(** ** Strings *)

Lemma startsWith_app (t suf : jsstring) : startsWith (t ++ suf) t = true.
Proof.
  induction t as [|c t IH]; simpl.
  - reflexivity.
  - rewrite N.eqb_refl. exact IH.
Qed.

Lemma includes_unfold (s t : jsstring) :
  includes s t
  = startsWith s t || match s with [] => false | _ :: s' => includes s' t end.
Proof. destruct s; reflexivity. Qed.

Lemma includes_infix (s t : jsstring) : infix_of t s -> includes s t = true.
Proof.
  intros (pre & suf & ->). induction pre as [|c pre IH].
  - change ([] ++ t ++ suf) with (t ++ suf).
    rewrite includes_unfold, (startsWith_app t suf). reflexivity.
  - change ((c :: pre) ++ t ++ suf) with (c :: (pre ++ t ++ suf)).
    rewrite includes_unfold, IH. apply orb_true_r.
Qed.

Lemma infix_of_app_l (t s p : jsstring) : infix_of t s -> infix_of t (p ++ s).
Proof.
  intros (pre & suf & ->). exists (p ++ pre), suf.
  rewrite <- app_assoc. reflexivity.
Qed.

Lemma split_ws_go_infix (s : jsstring) :
  forall in_ws cur t,
    t ∈ split_ws_go in_ws cur s -> infix_of t (rev cur ++ s).
Proof.
  induction s as [|c s IH]; intros in_ws cur t Ht; simpl in Ht.
  - apply list_elem_of_singleton in Ht as ->. exists [], [].
    rewrite app_nil_r. reflexivity.
  - destruct (is_whitespace c).
    + assert (t ∈ split_ws_go true [] s -> infix_of t (rev cur ++ c :: s))
        as Hrest.
      { intros Hin. apply IH in Hin. simpl in Hin.
        replace (rev cur ++ c :: s) with ((rev cur ++ [c]) ++ s)
          by (rewrite <- app_assoc; reflexivity).
        apply infix_of_app_l, Hin. }
      destruct in_ws.
      * apply Hrest, Ht.
      * apply elem_of_cons in Ht as [->|Ht]; [|apply Hrest, Ht].
        exists [], (c :: s). reflexivity.
    + apply IH in Ht. simpl in Ht. rewrite <- app_assoc in Ht. exact Ht.
Qed.

(** Every term of a query occurs in the lower-cased query. *)
Lemma filter_Boolean_split_ws_infix (s t : jsstring) :
  t ∈ filter_Boolean (split_ws s) -> infix_of t s.
Proof.
  unfold filter_Boolean. intros Ht.
  apply list_elem_of_filter in Ht as [_ Ht].
  apply split_ws_go_infix in Ht. exact Ht.
Qed.

Lemma elem_of_rev {A : Type} (l : list A) (x : A) : x ∈ rev l <-> x ∈ l.
Proof. rewrite !list_elem_of_In. symmetry. apply in_rev. Qed.

Lemma filter_Boolean_cons (p : jsstring) (l : list jsstring) :
  filter_Boolean (p :: l)
  = match p with [] => filter_Boolean l | _ :: _ => p :: filter_Boolean l end.
Proof.
  unfold filter_Boolean. rewrite filter_cons. destruct p; reflexivity.
Qed.

(** The pieces of [split(/\s+/)] that [filter(Boolean)] keeps are the words
    of the string. *)
Lemma split_ws_go_words (s : jsstring) :
  forall (in_ws : bool) (cur : jsstring),
    Forall (fun c => is_whitespace c = false) cur ->
    (in_ws = true -> cur = []) ->
    words_of (rev cur ++ s) (filter_Boolean (split_ws_go in_ws cur s)).
Proof.
  induction s as [|c s IH]; intros in_ws cur Hcur Hws;
    assert (Forall (fun c => is_whitespace c = false) (rev cur)) as Hrun
      by (apply Forall_forall; intros x Hx; rewrite elem_of_rev in Hx;
          rewrite Forall_forall in Hcur; apply Hcur, Hx).
  - cbn [split_ws_go]. rewrite filter_Boolean_cons, app_nil_r.
    destruct (rev cur) as [|d w] eqn:Hrev; [constructor|].
    assert (words_of ((d :: w) ++ []) [d :: w]) as Hword.
    { apply words_word; [discriminate| |discriminate|constructor].
      exact Hrun. }
    rewrite app_nil_r in Hword. exact Hword.
  - cbn [split_ws_go]. destruct (is_whitespace c) eqn:Hc.
    + assert (words_of (c :: s) (filter_Boolean (split_ws_go true [] s)))
        as Hrest.
      { apply words_skip; [exact Hc|].
        apply (IH true []); [constructor|reflexivity]. }
      destruct in_ws.
      * rewrite (Hws eq_refl). exact Hrest.
      * rewrite filter_Boolean_cons.
        destruct (rev cur) as [|d w] eqn:Hrev; [exact Hrest|].
        apply words_word; [discriminate| | |exact Hrest].
        -- exact Hrun.
        -- intros c' s' Heq. injection Heq as <- _. exact Hc.
    + replace (rev cur ++ c :: s) with (rev (c :: cur) ++ s)
        by (simpl; rewrite <- app_assoc; reflexivity).
      apply IH; [constructor; assumption|discriminate].
Qed.

Lemma split_ws_words (s : jsstring) :
  words_of s (filter_Boolean (split_ws s)).
Proof. apply (split_ws_go_words s false []); [constructor|discriminate]. Qed.

(** A run of units that are not white space, up to the end of the string
    or a white-space unit, is fixed by the string. *)
Lemma run_unique (w : jsstring) :
  forall w' s s' : jsstring,
    Forall (fun c => is_whitespace c = false) w ->
    Forall (fun c => is_whitespace c = false) w' ->
    (forall c t, s = c :: t -> is_whitespace c = true) ->
    (forall c t, s' = c :: t -> is_whitespace c = true) ->
    w ++ s = w' ++ s' -> w = w' /\ s = s'.
Proof.
  induction w as [|c w IH]; intros w' s s' Hw Hw' Hs Hs' Heq.
  - destruct w' as [|c' w']; [split; [reflexivity|exact Heq]|].
    simpl in Heq. apply Forall_cons in Hw' as [Hc' _].
    rewrite (Hs c' (w' ++ s') Heq) in Hc'. discriminate.
  - apply Forall_cons in Hw as [Hc Hw].
    destruct w' as [|c' w'].
    + simpl in Heq. symmetry in Heq.
      rewrite (Hs' c (w ++ s) Heq) in Hc. discriminate.
    + apply Forall_cons in Hw' as [_ Hw'].
      simpl in Heq. injection Heq as <- Heq.
      destruct (IH w' s s' Hw Hw' Hs Hs' Heq) as [-> ->].
      split; reflexivity.
Qed.

(** A string has one list of words. *)
Lemma words_of_unique (s : jsstring) (l1 l2 : list jsstring) :
  words_of s l1 -> words_of s l2 -> l1 = l2.
Proof.
  intros H1. revert l2.
  induction H1 as [|c s l Hc _ IH|w s l Hne Hw Hs _ IH]; intros l2 H2.
  - remember [] as t eqn:Ht in H2.
    destruct H2 as [|c s l Hc _|w s l Hne _ _ _]; [reflexivity|discriminate|].
    destruct w; [contradiction|discriminate].
  - remember (c :: s) as t eqn:Ht in H2.
    destruct H2 as [|c' s' l' Hc' H2|w s' l' Hne Hw _ _]; [discriminate| |].
    + injection Ht as -> ->. apply IH, H2.
    + destruct w as [|d w]; [contradiction|].
      simpl in Ht. injection Ht as -> _.
      apply Forall_cons in Hw as [Hd _]. rewrite Hc in Hd. discriminate.
  - remember (w ++ s) as t eqn:Ht in H2.
    destruct H2 as [|c' s' l' Hc' _|w' s' l' Hne' Hw' Hs' H2].
    + destruct w; [contradiction|discriminate].
    + destruct w as [|d w]; [contradiction|].
      simpl in Ht. injection Ht as -> _.
      apply Forall_cons in Hw as [Hd _]. rewrite Hc' in Hd. discriminate.
    + destruct (run_unique w' w s' s Hw' Hw Hs' Hs Ht) as [-> ->].
      f_equal. apply IH, H2.
Qed.

Lemma jsstring_eqb_eq (a b : jsstring) : jsstring_eqb a b = true <-> a = b.
Proof. unfold jsstring_eqb. apply bool_decide_eq_true. Qed.

(** ** Arrays *)

Lemma slice0_nonneg {A} (e : Z) (l : list A) :
  0 <= e -> slice0 e l = take (Z.to_nat e) l.
Proof.
  intros He. unfold slice0. destruct (Z.ltb_spec e 0); [lia|reflexivity].
Qed.

Lemma slice0_map {A B} (f : A -> B) (e : Z) (l : list A) :
  slice0 e (map f l) = map f (slice0 e l).
Proof.
  unfold slice0. rewrite length_map. destruct (e <? 0); apply firstn_map.
Qed.

(** [slice(0, e)] keeps the first [e] elements, or for a negative [e] all
    but the last [-e]. *)
Lemma slice0_take {A} (e : Z) (l : list A) :
  exists kept : nat,
    slice0 e l = take kept l
    /\ (0 <= e -> kept = Z.to_nat e)
    /\ (e < 0 -> kept = (length l - Z.to_nat (- e))%nat).
Proof.
  unfold slice0. destruct (Z.ltb_spec e 0) as [Hneg|Hpos].
  - exists (length l - Z.to_nat (- e))%nat. split; [f_equal; lia|].
    split; [lia|reflexivity].
  - exists (Z.to_nat e). split; [reflexivity|]. split; [reflexivity|lia].
Qed.

Lemma index_from_snd {A} (n : nat) (l : list A) :
  map snd (index_from n l) = l.
Proof.
  revert n. induction l as [|x l IH]; intros n; simpl.
  - reflexivity.
  - rewrite IH. reflexivity.
Qed.

Lemma index_from_elem {A} (n : nat) (l : list A) (i : nat) (x : A) :
  (i, x) ∈ index_from n l <-> (n <= i)%nat /\ l !! (i - n)%nat = Some x.
Proof.
  revert n. induction l as [|y l IH]; intros n; simpl.
  - split; [intros Hin; inversion Hin | intros [_ Hl]; discriminate].
  - rewrite elem_of_cons, IH. split.
    + intros [Heq|[Hle Hl]].
      * inversion Heq; subst. rewrite Nat.sub_diag. split; [lia|reflexivity].
      * split; [lia|]. replace (i - n)%nat with (S (i - S n)) by lia.
        exact Hl.
    + intros [Hle Hl]. destruct (decide (i = n)) as [->|Hne].
      * rewrite Nat.sub_diag in Hl. simpl in Hl. left. congruence.
      * right. split; [lia|].
        replace (i - n)%nat with (S (i - S n)) in Hl by lia. exact Hl.
Qed.

Lemma index_from_sorted {A} (n : nat) (l : list A) :
  StronglySorted (fun x y => (fst x < fst y)%nat) (index_from n l).
Proof.
  revert n. induction l as [|x l IH]; intros n; simpl.
  - constructor.
  - constructor; [apply IH|]. apply Forall_forall. intros [i y] Hin.
    apply index_from_elem in Hin as [Hle _].
    simpl. lia.
Qed.

Lemma filter_map_comm {A B : Type} (f : A -> B) (P : B -> Prop)
    `{!forall y, Decision (P y)} (l : list A) :
  filter P (map f l) = map f (filter (fun x => P (f x)) l).
Proof.
  induction l as [|x l IH]; simpl.
  - reflexivity.
  - rewrite !filter_cons. destruct (decide (P (f x))); simpl; rewrite IH;
      reflexivity.
Qed.

Lemma StronglySorted_filter {A : Type} (R : A -> A -> Prop) (P : A -> Prop)
    `{!forall x, Decision (P x)} (l : list A) :
  StronglySorted R l -> StronglySorted R (filter P l).
Proof.
  induction 1 as [|x l Hs IH Hx].
  - constructor.
  - rewrite filter_cons. destruct (decide (P x)); [|exact IH].
    constructor; [exact IH|].
    rewrite Forall_forall in Hx |- *. intros y Hy.
    apply list_elem_of_filter in Hy as [_ Hy]. apply Hx, Hy.
Qed.

Lemma StronglySorted_map_elem {A B : Type} (R : A -> A -> Prop)
    (R' : B -> B -> Prop) (f : A -> B) (l : list A) :
  StronglySorted R l ->
  (forall x y, x ∈ l -> y ∈ l -> R x y -> R' (f x) (f y)) ->
  StronglySorted R' (map f l).
Proof.
  intros Hs. induction Hs as [|x l Hs IH Hx]; intros Hf; simpl.
  - constructor.
  - constructor.
    + apply IH. intros a b Ha Hb. apply Hf; apply elem_of_cons; right;
        assumption.
    + rewrite Forall_forall in Hx. apply Forall_forall. intros y Hy.
      change (y ∈ f <$> l) in Hy.
      apply list_elem_of_fmap in Hy as (z & -> & Hz).
      apply Hf; [apply elem_of_cons; left; reflexivity
                |apply elem_of_cons; right; exact Hz
                |apply Hx, Hz].
Qed.

Lemma Forall2_map_same {A B C : Type} (R : B -> C -> Prop) (f : A -> B)
    (g : A -> C) (l : list A) :
  Forall (fun x => R (f x) (g x)) l -> Forall2 R (map f l) (map g l).
Proof. induction 1; simpl; constructor; assumption. Qed.

Lemma StronglySorted_lookup {A : Type} (R : A -> A -> Prop) (l : list A)
    (i j : nat) (x y : A) :
  StronglySorted R l -> (i < j)%nat ->
  l !! i = Some x -> l !! j = Some y -> R x y.
Proof.
  intros Hs. revert i j. induction Hs as [|z l Hs IH Hz]; intros i j Hij Hi Hj.
  - discriminate.
  - destruct j as [|j]; [lia|]. simpl in Hj. destruct i as [|i].
    + simpl in Hi. injection Hi as ->.
      rewrite Forall_forall in Hz. apply Hz.
      eapply list_elem_of_lookup_2, Hj.
    + simpl in Hi. apply (IH i j); [lia|assumption|assumption].
Qed.

Lemma filter_all {A : Type} (P : A -> Prop) `{!forall x, Decision (P x)}
    (l : list A) :
  Forall P l -> filter P l = l.
Proof.
  induction 1 as [|x l Hx _ IH].
  - reflexivity.
  - rewrite filter_cons_True by exact Hx. rewrite IH. reflexivity.
Qed.

(** ** searchDatasets *)

Section SearchFacts.

Context `{JsHost}.

Lemma count_loop (p : jsstring -> bool) (terms : list jsstring) (a : Z) :
  foldl (fun sc term => if p term then sc + 1 else sc) a terms
  = a + Z.of_nat (length (filter (fun t => p t = true) terms)).
Proof.
  revert a. induction terms as [|t terms IH]; intros a; simpl.
  - lia.
  - rewrite IH, filter_cons. destruct (p t) eqn:E.
    + rewrite decide_True by reflexivity. simpl length. lia.
    + rewrite decide_False by discriminate. lia.
Qed.

(** The score is the number of terms found in the searchable text, plus
    100 when the code is the whole query. *)
Lemma score_entry_formula (terms : list jsstring) (lowerQuery : jsstring)
    (e : TocEntry) :
  score_entry terms lowerQuery e
  = Z.of_nat (length (filter
      (fun t => includes (toLowerCase (toc_title e ++ str " " ++ toc_code e)) t
                = true) terms))
    + (if jsstring_eqb (toLowerCase (toc_code e)) lowerQuery then 100 else 0).
Proof.
  unfold score_entry. rewrite count_loop.
  destruct (jsstring_eqb _ _); lia.
Qed.

Lemma score_entry_title_only (query : jsstring) (e : TocEntry) :
  ~ exact_code_match query e ->
  score_entry (query_terms query) (toLowerCase query) e
  <= Z.of_nat (length (query_terms query)).
Proof.
  intros Hne. rewrite score_entry_formula.
  destruct (jsstring_eqb _ _) eqn:E.
  - apply jsstring_eqb_eq in E. contradiction.
  - pose proof (length_filter
      (fun t => includes (toLowerCase (toc_title e ++ str " " ++ toc_code e)) t
                = true) (query_terms query)). lia.
Qed.

Lemma score_entry_exact (query : jsstring) (e : TocEntry) :
  (forall t c, exists p,
      toLowerCase (t ++ str " " ++ c) = p ++ toLowerCase c) ->
  exact_code_match query e ->
  score_entry (query_terms query) (toLowerCase query) e
  = Z.of_nat (length (query_terms query)) + 100.
Proof.
  intros Hlower Hex. rewrite score_entry_formula.
  unfold exact_code_match in Hex. rewrite Hex.
  replace (jsstring_eqb (toLowerCase query) (toLowerCase query)) with true
    by (symmetry; apply jsstring_eqb_eq; reflexivity).
  rewrite filter_all; [reflexivity|].
  apply Forall_forall. intros t Ht.
  apply includes_infix.
  destruct (Hlower (toc_title e) (toc_code e)) as [p ->].
  apply infix_of_app_l. rewrite Hex.
  apply filter_Boolean_split_ws_infix, Ht.
Qed.

(** The entries kept by [searchDatasets], as positions of the catalogue:
    they are the positions of positive score, ordered by descending score
    and, among equal scores, by catalogue position; the result lists the
    entries of the slice of them that [limit] selects. *)
Lemma rank_entries_ranking (toc : list TocEntry) (query : jsstring)
    (limit : Z) :
  exists ranking : list nat,
    Forall2 (fun i e => toc !! i = Some e)
            (slice0 limit ranking) (rank_entries toc query limit)
    /\ (forall i, i ∈ ranking
                  <-> (i < length toc)%nat /\ 0 < score_at toc query i)
    /\ StronglySorted (ranked (score_at toc query) id) ranking.
Proof.
  set (sc := score_entry (query_terms query) (toLowerCase query)).
  set (items := map (fun p : nat * TocEntry => (fst p, (snd p, sc (snd p))))
                    (index_from 0 toc)).
  set (key := fun it : nat * (TocEntry * Z) => snd (snd it)).
  set (ikept := filter (fun it => 0 < key it) items).
  set (isorted := stable_sort (key_desc key) ikept).
  assert (forall it, it ∈ items <->
            toc !! fst it = Some (fst (snd it)) /\ key it = sc (fst (snd it)))
    as Hitems.
  { intros [i [e s]]. unfold items. change (map ?f ?l) with (f <$> l).
    rewrite list_elem_of_fmap. unfold key. simpl. split.
    - intros ([j e'] & Heq & Hin). simpl in Heq. injection Heq as -> -> ->.
      apply index_from_elem in Hin as [_ Hl].
      rewrite Nat.sub_0_r in Hl. split; [exact Hl|reflexivity].
    - intros [Hl ->]. exists (i, e). split; [reflexivity|].
      apply index_from_elem. rewrite Nat.sub_0_r. split; [lia|exact Hl]. }
  assert (forall it, it ∈ isorted <-> it ∈ items /\ 0 < key it) as Hsorted.
  { intros it. unfold isorted. rewrite (stable_sort_perm (key_desc key) ikept).
    unfold ikept. rewrite list_elem_of_filter. tauto. }
  assert (forall it, it ∈ isorted -> score_at toc query (fst it) = key it)
    as Hscore.
  { intros it Hit. apply Hsorted in Hit as [Hit _].
    apply Hitems in Hit as [Hl Hk]. unfold score_at. rewrite Hl, Hk.
    reflexivity. }
  assert (map snd isorted
          = stable_sort (fun a b : TocEntry * Z => snd b <=? snd a)
              (filter (fun item : TocEntry * Z => 0 < snd item)
                      (map (fun entry => (entry, sc entry)) toc))) as Hproj.
  { unfold isorted, ikept, items.
    rewrite <- (stable_sort_map (key_desc key) snd
                  (fun a b : TocEntry * Z => snd b <=? snd a))
      by reflexivity.
    f_equal.
    rewrite <- (index_from_snd 0 toc) at 2.
    rewrite map_map.
    rewrite (filter_map_comm (fun p : nat * TocEntry => (snd p, sc (snd p)))).
    rewrite (filter_map_comm
               (fun p : nat * TocEntry => (fst p, (snd p, sc (snd p))))).
    rewrite map_map. reflexivity. }
  exists (map fst isorted). split; [|split].
  - unfold rank_entries. fold sc. fold (query_terms query). fold sc.
    rewrite <- Hproj. rewrite !slice0_map. rewrite map_map.
    apply Forall2_map_same. apply Forall_forall. intros it Hit.
    destruct (slice0_take limit isorted) as (kept & Hkept & _).
    rewrite Hkept in Hit.
    apply elem_of_take in Hit as (k & Hk & _).
    apply list_elem_of_lookup_2 in Hk.
    apply Hsorted in Hk as [Hk _]. apply Hitems in Hk as [Hl _]. exact Hl.
  - intros i. change (map fst isorted) with (fst <$> isorted).
    rewrite list_elem_of_fmap. split.
    + intros (it & -> & Hit). rewrite (Hscore it Hit).
      apply Hsorted in Hit as [Hit Hpos]. apply Hitems in Hit as [Hl _].
      split; [eapply lookup_lt_Some, Hl | exact Hpos].
    + intros [Hlt Hpos]. unfold score_at in Hpos.
      destruct (toc !! i) as [e|] eqn:Hl; [|lia].
      exists (i, (e, sc e)). split; [reflexivity|].
      apply Hsorted. split; [apply Hitems; simpl; split; [exact Hl|reflexivity]|].
      exact Hpos.
  - apply (StronglySorted_map_elem (ranked key fst)).
    + apply stable_sort_ranked. unfold ikept. apply StronglySorted_filter.
      unfold items.
      apply (StronglySorted_map_elem (fun x y => (fst x < fst y)%nat));
        [apply index_from_sorted|].
      intros x y _ _ Hxy. exact Hxy.
    + intros x y Hx Hy. unfold ranked, id.
      rewrite (Hscore x Hx), (Hscore y Hy). tauto.
Qed.

(** An entry whose code is the whole query precedes, in the result, every
    entry of the result whose code is not. *)
Lemma exact_match_first (toc : list TocEntry) (query : jsstring) (kept : nat)
    (ranking : list nat) (res : list TocEntry) :
  (forall t c, exists p,
      toLowerCase (t ++ str " " ++ c) = p ++ toLowerCase c) ->
  Forall2 (fun i e => toc !! i = Some e) (take kept ranking) res ->
  (forall i, i ∈ ranking
             <-> (i < length toc)%nat /\ 0 < score_at toc query i) ->
  StronglySorted (ranked (score_at toc query) id) ranking ->
  forall (e e' : TocEntry) (k' : nat),
    e ∈ toc -> exact_code_match query e -> ~ exact_code_match query e' ->
    res !! k' = Some e' ->
    exists k, (k < k')%nat /\ res !! k = Some e.
Proof.
  intros Hlower Hres Hmem Hsorted e e' k' He Hex Hne Hk'.
  destruct (Forall2_lookup_r _ _ _ _ _ Hres Hk') as (j' & Hj' & Htoc').
  apply lookup_take_Some in Hj' as [Hj' Hlt'].
  apply list_elem_of_lookup_1 in He as [j Hj].
  assert (score_at toc query j
          = Z.of_nat (length (query_terms query)) + 100) as Hsj.
  { unfold score_at. rewrite Hj. apply score_entry_exact; assumption. }
  assert (score_at toc query j' <= Z.of_nat (length (query_terms query)))
    as Hsj'.
  { unfold score_at. rewrite Htoc'. apply score_entry_title_only, Hne. }
  assert (j ∈ ranking) as Hin.
  { apply Hmem. split; [eapply lookup_lt_Some, Hj | lia]. }
  apply list_elem_of_lookup_1 in Hin as [k Hk].
  assert (k < k')%nat as Hkk.
  { destruct (Nat.lt_trichotomy k k') as [Hlt|[Heq|Hgt]]; [exact Hlt| |].
    - subst k'. rewrite Hk in Hj'. injection Hj' as <-. lia.
    - pose proof (StronglySorted_lookup _ _ _ _ _ _ Hsorted Hgt Hj' Hk) as Hr.
      unfold ranked, id in Hr. lia. }
  exists k. split; [exact Hkk|].
  assert (take kept ranking !! k = Some j) as Htk.
  { apply lookup_take_Some. split; [exact Hk|lia]. }
  destruct (Forall2_lookup_l _ _ _ _ _ Hres Htk) as (e2 & He2 & Htoc2).
  rewrite Hj in Htoc2. injection Htoc2 as <-. exact He2.
Qed.

End SearchFacts.

(** ** rateLimitedFetch *)

Lemma spaced_cons (gap a b : Z) (l : list Z) :
  a + gap <= b -> spaced gap (b :: l) -> spaced gap (a :: b :: l).
Proof.
  intros Hab Hl [|i] x y Hx Hy; simpl in *.
  - injection Hx as <-. injection Hy as <-. exact Hab.
  - apply (Hl i x y); assumption.
Qed.

Lemma spaced_singleton (gap a : Z) : spaced gap [a].
Proof. intros [|i] x y Hx Hy; simpl in *; discriminate. Qed.

Section FetchFacts.

Context `{JsHost}.

Lemma rate_dispatch_spacing (last : Z) (tk : Tick) :
  0 <= tick_lag tk ->
  last + MIN_REQUEST_INTERVAL_MS <= rate_dispatch last tk.
Proof.
  intros Hlag. unfold rate_dispatch, rate_delay.
  destruct (Z.ltb_spec (tick_now tk - last) MIN_REQUEST_INTERVAL_MS); lia.
Qed.

Lemma dispatch_log_spaced (calls : list (jsstring * Env)) :
  Forall (fun c => 0 <= tick_lag (env_tick (snd c))) calls ->
  forall st,
    spaced MIN_REQUEST_INTERVAL_MS (lastRequestTime st :: dispatch_log calls st).
Proof.
  induction 1 as [|[url env] calls Hlag _ IH]; intros st.
  - apply spaced_singleton.
  - simpl. apply spaced_cons.
    + apply rate_dispatch_spacing. exact Hlag.
    + apply (IH (set_lastRequestTime
                   (rate_dispatch (lastRequestTime st) (env_tick env)) st)).
Qed.

Lemma rateLimitedFetch_caches (url : jsstring) (env : Env) (st : State) :
  same_caches st (snd (rateLimitedFetch url env st)).
Proof. repeat split. Qed.

(** ** The caches *)

Lemma fetchToc_refresh_failure (lang : jsstring) (env : Env) (st : State) :
  res_ok (env_http env (toc_url lang)) = false ->
  exists msg st',
    fetchToc_refresh lang env st = (inl msg, st') /\ same_caches st st'.
Proof.
  intros Hok. unfold fetchToc_refresh, rateLimitedFetch. rewrite Hok. simpl.
  eexists _, _. split; [reflexivity|]. repeat split.
Qed.

Lemma fetchToc_stale (lang : jsstring) (env : Env) (st : State) :
  toc_is_fresh (env_now env) st = false ->
  fetchToc lang env st = fetchToc_refresh lang env st.
Proof.
  unfold toc_is_fresh, fetchToc. destruct (cachedToc st); [|reflexivity].
  intros ->. reflexivity.
Qed.

Lemma fetchToc_refresh_success (lang : jsstring) (env : Env) (st : State) :
  res_ok (env_http env (toc_url lang)) = true ->
  exists st',
    fetchToc_refresh lang env st
    = (inr (parseToc (res_text (env_http env (toc_url lang)))), st')
    /\ cachedToc st' = Some (parseToc (res_text (env_http env (toc_url lang))))
    /\ tocCachedAt st' = env_now env.
Proof.
  intros Hok. unfold fetchToc_refresh, rateLimitedFetch. rewrite Hok. simpl.
  eexists. split; [reflexivity|]. split; reflexivity.
Qed.

Lemma resolveGeoCode_stale (query : jsstring) (env : Env) (st : State) :
  geo_is_fresh (env_now env) st = false ->
  resolveGeoCode query env st = resolveGeoCode_refresh query env st.
Proof.
  unfold geo_is_fresh, resolveGeoCode. destruct (cachedGeoCodes st);
    [|reflexivity].
  destruct (_ <? _); [reflexivity|discriminate].
Qed.

Lemma resolveGeoCode_refresh_failure (query : jsstring) (env : Env)
    (st : State) :
  res_ok (env_http env geo_url) = false ->
  exists msg st',
    resolveGeoCode_refresh query env st = (inl msg, st') /\ same_caches st st'.
Proof.
  intros Hok. unfold resolveGeoCode_refresh, rateLimitedFetch. rewrite Hok.
  simpl. eexists _, _. split; [reflexivity|]. repeat split.
Qed.

End FetchFacts.

(** ** Substrings *)

Lemma startsWith_inv (t s : jsstring) :
  startsWith s t = true -> exists suf, s = t ++ suf.
Proof.
  revert s. induction t as [|c t IH]; intros s Hs.
  - exists s. reflexivity.
  - destruct s as [|d s]; simpl in Hs; [discriminate|].
    apply andb_true_iff in Hs as [Hc Hs]. apply N.eqb_eq in Hc as ->.
    destruct (IH s Hs) as [suf ->]. exists suf. reflexivity.
Qed.

Lemma includes_inv (s t : jsstring) : includes s t = true -> infix_of t s.
Proof.
  induction s as [|c s IH]; rewrite includes_unfold; intros Hs.
  - rewrite orb_false_r in Hs. apply startsWith_inv in Hs as [suf ->].
    exists [], suf. reflexivity.
  - apply orb_true_iff in Hs as [Hs|Hs].
    + apply startsWith_inv in Hs as [suf ->]. exists [], suf. reflexivity.
    + apply (infix_of_app_l t s [c]), IH, Hs.
Qed.

Lemma includes_iff (s t : jsstring) : includes s t = true <-> infix_of t s.
Proof. split; [apply includes_inv | apply includes_infix]. Qed.

(** ** resolveGeoCode *)

Section GeoFacts.

Context `{JsHost}.




Lemma parseGeoCodes_level (xml : jsstring) :
  Forall (fun gc => geo_level gc = level_of_code (geo_code gc))
         (parseGeoCodes xml).
Proof.
  unfold parseGeoCodes. apply Forall_forall. intros gc Hgc.
  change (gc ∈ (fun m => {| geo_code := fst m; geo_name := snd m;
                            geo_level := level_of_code (fst m) |})
               <$> codeRegex_matches xml) in Hgc.
  apply list_elem_of_fmap in Hgc as (m & -> & _). reflexivity.
Qed.

End GeoFacts.

(** ** getDatasetStructure *)

(** A loop that ends without an error pushed one element for each turn. *)
Lemma push_each_inr {A B : Type} (turn : A -> jsstring + B) (l : list A) :
  forall r : list B,
    push_each turn l = inr r -> Forall2 (fun x y => turn x = inr y) l r.
Proof.
  induction l as [|x l IH]; intros r Hr; simpl in Hr.
  - injection Hr as <-. constructor.
  - destruct (turn x) as [err|y] eqn:Hx; [discriminate|].
    destruct (push_each turn l) as [err|ys]; [discriminate|].
    injection Hr as <-. constructor; [exact Hx|apply IH; reflexivity].
Qed.

Section StructureFacts.

Context `{JsHost}.

Lemma build_dimension_inr (xml : jsstring)
    (codelistMap : list (jsstring * list CodeItem))
    (entry : jsstring * jsstring) (d : DatasetDimension) :
  build_dimension xml codelistMap entry = inr d ->
  dd_id d = fst entry
  /\ dd_values d = take 200 (default [] (Map_get (snd entry) codelistMap)).
Proof.
  destruct entry as [dimId clId]. unfold build_dimension.
  destruct (conceptRegex dimId) as [err|exec]; [discriminate|].
  intros Hd. injection Hd as <-. split; reflexivity.
Qed.

(** The dimensions of a structure that is returned: one for each entry of
    [dimCodelistMap], in its order, and then the time dimension. *)
Lemma getDatasetStructure_inr (datasetCode : jsstring) (env : Env)
    (st st' : State) (s : DatasetStructure) :
  getDatasetStructure datasetCode env st = (inr s, st') ->
  let xml := res_text (env_http env (structure_url datasetCode)) in
  exists backed : list DatasetDimension,
    Forall2 (fun entry d =>
               dd_id d = fst entry
               /\ dd_values d
                  = take 200 (default []
                                (Map_get (snd entry) (build_codelistMap xml))))
            (build_dimCodelistMap xml) backed
    /\ ds_dimensions s
       = match timeDimRegex_match xml with
         | Some timeId => backed ++ [ {| dd_id := timeId;
                                         dd_name := str "Time period";
                                         dd_values := [time_hint] |} ]
         | None => backed
         end.
Proof.
  unfold getDatasetStructure, rateLimitedFetch.
  destruct (res_ok _); [|discriminate]. cbn [negb]. cbn zeta.
  set (xml := res_text (env_http env (structure_url datasetCode))).
  unfold build_dimensions.
  destruct (push_each _ _) as [err|backed] eqn:Hloop; [discriminate|].
  apply push_each_inr in Hloop.
  intros Heq. exists backed. split.
  - eapply Forall2_impl; [exact Hloop|].
    intros entry d Hd. apply build_dimension_inr in Hd. exact Hd.
  - destruct (timeDimRegex_match xml); injection Heq as <- _; reflexivity.
Qed.

End StructureFacts.

Lemma Map_set_keys {V : Type} (k : jsstring) (v : V)
    (m : list (jsstring * V)) :
  map fst (Map_set k v m)
  = if bool_decide (k ∈ map fst m) then map fst m else map fst m ++ [k].
Proof.
  induction m as [|[k' v'] m IH]; simpl.
  - reflexivity.
  - unfold jsstring_eqb. destruct (decide (k' = k)) as [->|Hne].
    + rewrite bool_decide_eq_true_2 by reflexivity.
      rewrite bool_decide_eq_true_2 by (apply elem_of_cons; left; reflexivity).
      reflexivity.
    + rewrite (bool_decide_eq_false_2 (k' = k)) by exact Hne.
      simpl. rewrite IH.
      destruct (decide (k ∈ map fst m)) as [Hin|Hnin].
      * rewrite !bool_decide_eq_true_2;
          [reflexivity | apply elem_of_cons; right; exact Hin | exact Hin].
      * rewrite !bool_decide_eq_false_2; [reflexivity | | exact Hnin].
        intros Hin. apply elem_of_cons in Hin as [->|Hin]; contradiction.
Qed.

Lemma Map_build_keys {V : Type} (l : list (jsstring * V))
    (m : list (jsstring * V)) :
  map fst (foldl (fun m p => Map_set (fst p) (snd p) m) m l)
  = foldl (fun acc k => if bool_decide (k ∈ acc) then acc else acc ++ [k])
          (map fst m) (map fst l).
Proof.
  revert m. induction l as [|[k v] l IH]; intros m; simpl.
  - reflexivity.
  - rewrite IH, Map_set_keys. reflexivity.
Qed.

Lemma first_occurrences_go_NoDup (l acc : list jsstring) :
  NoDup (acc ++ l) ->
  foldl (fun acc k => if bool_decide (k ∈ acc) then acc else acc ++ [k]) acc l
  = acc ++ l.
Proof.
  revert acc. induction l as [|k l IH]; intros acc Hnd; simpl.
  - rewrite app_nil_r. reflexivity.
  - assert (k ∉ acc) as Hk.
    { apply NoDup_app in Hnd as (_ & Hdisj & _). intros Hin.
      apply (Hdisj k Hin). apply elem_of_cons. left. reflexivity. }
    rewrite bool_decide_eq_false_2 by exact Hk.
    rewrite IH; rewrite <- app_assoc; [reflexivity | exact Hnd].
Qed.

Lemma first_occurrences_NoDup (l : list jsstring) :
  NoDup l -> first_occurrences l = l.
Proof. intros Hnd. apply (first_occurrences_go_NoDup l []). exact Hnd. Qed.

(** ** getDatasetData *)

Lemma present_cells_from_elem {A : Type} (values : list (option A)) (n i : nat)
    (v : A) :
  (i, v) ∈ omap (fun p : nat * option A =>
                   match snd p with
                   | Some v => Some (fst p, v)
                   | None => None
                   end) (index_from n values)
  <-> (n <= i)%nat /\ values !! (i - n)%nat = Some (Some v).
Proof.
  rewrite list_elem_of_omap. split.
  - intros ([j [w|]] & Hin & Heq); simpl in Heq; [|discriminate].
    injection Heq as -> ->. apply index_from_elem in Hin. exact Hin.
  - intros Hin. exists (i, Some v). split; [|reflexivity].
    apply index_from_elem. exact Hin.
Qed.

Lemma present_cells_elem {A : Type} (values : list (option A)) (i : nat)
    (v : A) :
  (i, v) ∈ present_cells values <-> values !! i = Some (Some v).
Proof.
  unfold present_cells. rewrite present_cells_from_elem, Nat.sub_0_r.
  split; [intros [_ Hl]; exact Hl | intros Hl; split; [lia|exact Hl]].
Qed.

Lemma present_cells_from_sorted {A : Type} (values : list (option A))
    (n : nat) :
  StronglySorted (fun x y => (fst x < fst y)%nat)
    (omap (fun p : nat * option A =>
             match snd p with
             | Some v => Some (fst p, v)
             | None => None
             end) (index_from n values)).
Proof.
  revert n. induction values as [|[v|] values IH]; intros n; simpl.
  - constructor.
  - constructor; [apply IH|]. apply Forall_forall. intros [i w] Hin.
    apply present_cells_from_elem in Hin as [Hle _]. simpl. lia.
  - apply IH.
Qed.

Lemma present_cells_sorted {A : Type} (values : list (option A)) :
  StronglySorted (fun x y => (fst x < fst y)%nat) (present_cells values).
Proof. apply present_cells_from_sorted. Qed.

Section DataFacts.

Context `{JsHost}.

Lemma dense_values_length (rawValues : gmap jsstring (option num))
    (totalSize : Z) :
  length (dense_values rawValues totalSize) = Z.to_nat totalSize.
Proof. unfold dense_values. rewrite length_map, length_seq. reflexivity. Qed.

Lemma dense_values_lookup (rawValues : gmap jsstring (option num))
    (totalSize : Z) (i : nat) :
  (i < Z.to_nat totalSize)%nat ->
  dense_values rawValues totalSize !! i
  = Some (match rawValues !! String_of_nat i with
          | Some v => v
          | None => None
          end).
Proof.
  intros Hi. unfold dense_values. change (map ?f ?l) with (f <$> l).
  rewrite list_lookup_fmap, lookup_seq_lt by exact Hi. reflexivity.
Qed.

Lemma decode_dimension_categories (dimensionsData : gmap jsstring JsonDimension)
    (dimId : jsstring) :
  length (rd_categories (decode_dimension dimensionsData dimId))
  = length (jd_index (default empty_dimension (dimensionsData !! dimId))).
Proof.
  unfold decode_dimension. simpl. rewrite length_map, stable_sort_length.
  reflexivity.
Qed.

(** When the response declares, for each dimension id, the number of
    entries of its index as its size, the product of the sizes is the
    product of the numbers of categories. *)
Lemma consistent_sizes_product (dimensionsData : gmap jsstring JsonDimension)
    (dimIds : list jsstring) (dimSizes : list Z) :
  Forall2 (fun dimId size =>
             size = Z.of_nat (length (jd_index
                      (default empty_dimension (dimensionsData !! dimId)))))
          dimIds dimSizes ->
  product dimSizes
  = product (map (fun d => Z.of_nat (length (rd_categories d)))
                 (map (decode_dimension dimensionsData) dimIds))
  /\ 0 <= product dimSizes.
Proof.
  induction 1 as [|dimId size dimIds dimSizes Hsize _ [IH Hpos]]; cbn [map].
  - rewrite product_nil. split; [reflexivity|lia].
  - rewrite !product_cons, decode_dimension_categories, <- IH, <- Hsize.
    split; [reflexivity|]. subst size. lia.
Qed.

Lemma format_rows_cells (dimensions : list ResultDimension) (sizes : list Z)
    (values : list (option num)) (n : nat) :
  format_rows dimensions sizes n values
  = map (fun c => format_row dimensions sizes (fst c) (snd c))
        (omap (fun p : nat * option num =>
                 match snd p with
                 | Some v => Some (fst p, v)
                 | None => None
                 end) (index_from n values)).
Proof.
  revert n. induction values as [|[v|] values IH]; intros n; simpl.
  - reflexivity.
  - rewrite IH. reflexivity.
  - apply IH.
Qed.

Lemma format_lines_some (dimensions : list ResultDimension) (sizes : list Z)
    (values : list (option num)) :
  dimensions <> [] -> values <> [] ->
  format_lines dimensions sizes values
  = Some (format_header dimensions
          :: repeat_str (str "-") (length (format_header dimensions))
          :: map (fun c => format_row dimensions sizes (fst c) (snd c))
                 (present_cells values)).
Proof.
  intros Hd Hv. unfold format_lines.
  destruct dimensions; [contradiction|]. destruct values; [contradiction|].
  cbn [length Nat.eqb orb]. rewrite (format_rows_cells _ _ _ 0). reflexivity.
Qed.

Lemma format_lines_none (dimensions : list ResultDimension) (sizes : list Z)
    (values : list (option num)) :
  dimensions = [] \/ values = [] ->
  formatJsonStatData dimensions sizes values = str "No data available.".
Proof.
  intros [-> | ->]; unfold formatJsonStatData, format_lines.
  - reflexivity.
  - destruct dimensions; reflexivity.
Qed.

End DataFacts.

Lemma present_cells_from_length {A : Type} (values : list (option A))
    (n : nat) :
  length (omap (fun p : nat * option A =>
                  match snd p with
                  | Some v => Some (fst p, v)
                  | None => None
                  end) (index_from n values))
  = length (filter is_Some values).
Proof.
  revert n. induction values as [|[v|] values IH]; intros n.
  - reflexivity.
  - rewrite filter_cons_True by (eexists; reflexivity). simpl. rewrite IH.
    reflexivity.
  - rewrite filter_cons_False by (intros [? ?]; discriminate). simpl.
    apply IH.
Qed.

(** * Main results *)

(** ** The data decoder *)

Section DecoderResults.

Context `{JsHost}.

(** C1, as amended. For every decoded data response, the dense array has
    as many cells as the product of the declared sizes (none if that
    product is negative); the cell at position [i] is the entry of the
    sparse map under the key [String(i)] when there is one, and is absent
    ([null], not zero) otherwise. The length is the product of the numbers
    of categories of the dimensions when the response declares, for each
    dimension id, the number of entries of its index as its size. *)
Theorem dense_values_invariant (datasetCode : jsstring) (json : JsonStat) :
  let r := decodeJsonStat datasetCode json in
  length (r_values r) = Z.to_nat (product (js_size json))
  /\ (forall (i : nat) (v : option num),
        (i < length (r_values r))%nat ->
        js_value json !! String_of_nat i = Some v ->
        r_values r !! i = Some v)
  /\ (forall i : nat,
        (i < length (r_values r))%nat ->
        js_value json !! String_of_nat i = None ->
        r_values r !! i = Some None)
  /\ (Forall2 (fun dimId size =>
                 size = Z.of_nat (length (jd_index
                          (default empty_dimension
                                   (js_dimension json !! dimId)))))
              (js_id json) (js_size json) ->
      Z.of_nat (length (r_values r))
      = product (map (fun d => Z.of_nat (length (rd_categories d)))
                     (r_dimensions r))).
Proof.
  cbn zeta. unfold decodeJsonStat. cbn [r_values r_dimensions].
  rewrite dense_values_length. split; [reflexivity|]. split; [|split].
  - intros i v Hi Hv. rewrite dense_values_lookup by exact Hi.
    rewrite Hv. reflexivity.
  - intros i Hi Hv. rewrite dense_values_lookup by exact Hi.
    rewrite Hv. reflexivity.
  - intros Hsizes.
    destruct (consistent_sizes_product _ _ _ Hsizes) as [<- Hpos]. lia.
Qed.

(** C3, as amended. When the cube has at least one dimension and one value
    position, the formatted table is the header, the separator line and
    then exactly one row for each position that holds a present value, in
    position order and without a cap; a position with an absent value has
    no row. Without dimensions, or without value positions, the table is
    the text "No data available." and no value is rendered. *)
Theorem table_rows_present_values (dimensions : list ResultDimension)
    (sizes : list Z) (values : list (option num)) :
  (dimensions <> [] -> values <> [] ->
   let header := format_header dimensions in
   let rows := map (fun c => format_row dimensions sizes (fst c) (snd c))
                   (present_cells values) in
   formatJsonStatData dimensions sizes values
   = join [10%N] (header :: repeat_str (str "-") (length header) :: rows)
   /\ length rows = length (filter is_Some values))
  /\ (forall (i : nat) (v : num),
        (i, v) ∈ present_cells values <-> values !! i = Some (Some v))
  /\ StronglySorted (fun x y => (fst x < fst y)%nat) (present_cells values)
  /\ (dimensions = [] \/ values = [] ->
      formatJsonStatData dimensions sizes values = str "No data available.")
  /\ (forall (datasetCode : jsstring) (json : JsonStat),
        let r := decodeJsonStat datasetCode json in
        r_formattedData r
        = formatJsonStatData (r_dimensions r) (js_size json) (r_values r)).
Proof.
  split; [|split; [|split; [|split]]].
  - intros Hd Hv. cbn zeta. unfold formatJsonStatData.
    rewrite format_lines_some by assumption. split; [reflexivity|].
    rewrite length_map. apply present_cells_from_length.
  - apply present_cells_elem.
  - apply present_cells_sorted.
  - apply format_lines_none.
  - reflexivity.
Qed.

(** C2. For sizes that are cardinalities and a linear index below their
    product, the indices computed by the formatter, last dimension first
    by remainder and floored quotient, are one in-range index per dimension
    and re-encode to the linear index. *)
Theorem index_round_trip (s : list Z) (i : Z) :
  Forall (fun x => 0 <= x) s ->
  0 <= i < product s ->
  exists idx : list Z,
    decode_indices (length s) s i = map Some idx
    /\ Forall2 (fun j sz => 0 <= j < sz) idx s
    /\ encode_index s idx = i.
Proof.
  intros Hs. revert i.
  induction s as [|x s IH] using rev_ind; intros i Hi.
  - exists []. rewrite product_nil in Hi. repeat split; simpl; [constructor | lia].
  - apply Forall_app in Hs as [Hs Hx]. specialize (IH Hs).
    apply Forall_cons in Hx as [Hx _].
    rewrite product_app, product_cons, product_nil in Hi.
    pose proof (product_nonneg s Hs) as Hp.
    assert (0 < x) as Hx0 by nia.
    assert (0 <= i / x < product s) as Hq.
    { split; [apply Z.div_pos; lia|]. apply Z.div_lt_upper_bound; nia. }
    destruct (IH (i / x) Hq) as (idx & Hdec & Hrange & Henc).
    exists (idx ++ [Z.rem i x]).
    pose proof (Forall2_length _ _ _ Hrange) as Hlen.
    assert (Z.rem i x = i mod x) as Hrem by (apply Z.rem_mod_nonneg; lia).
    split; [|split].
    + unfold decode_indices in *. rewrite length_app. simpl.
      replace (length s + 1)%nat with (S (length s)) by lia. simpl.
      rewrite list_lookup_middle by reflexivity. simpl.
      destruct (Z.eqb_spec x 0) as [->|_]; [lia|].
      rewrite decode_loop_acc, decode_loop_app by lia.
      rewrite Hdec, map_app. reflexivity.
    + apply Forall2_app; [exact Hrange|].
      constructor; [|constructor]. rewrite Hrem. apply Z.mod_pos_bound. lia.
    + rewrite encode_index_snoc by lia. rewrite Henc, Hrem.
      pose proof (Z.div_mod i x). lia.
Qed.

End DecoderResults.

(** ** Search, structure and geo codes *)

Section LookupResults.

Context `{JsHost}.

(** C4, as amended. Over the catalogue [toc] that [fetchToc] yields, and
    for every query and every limit, [searchDatasets] returns the entries
    at the first [kept] positions of a ranking that holds exactly the
    positions of positive score, by descending score and, among equal
    scores, in catalogue order; [kept] is the limit when the limit is not
    negative, and otherwise leaves out the last [- limit] positions of the
    ranking. The terms of the query are the words of the lower-cased query,
    its maximal runs of units that are not white space, and no other list
    is. The score of an entry is the number of terms, counted as often as
    the query repeats them, that occur in the lower-cased text made of its
    title, one space and its code, plus 100 when its lower-cased code is
    the lower-cased query. When lower-casing
    the searchable text leaves the lower-cased code at its end, an entry
    whose code is the whole query comes, in the result, before every entry
    whose code is not. *)
Theorem searchDatasets_ranking (query lang : jsstring) (limit : Z) (env : Env)
    (st st' : State) (toc : list TocEntry) :
  fetchToc lang env st = (inr toc, st') ->
  exists (res : list TocEntry) (ranking : list nat) (kept : nat)
         (terms : list jsstring),
    searchDatasets query lang limit env st = (inr res, st')
    /\ Forall2 (fun i e => toc !! i = Some e) (take kept ranking) res
    /\ (0 <= limit -> kept = Z.to_nat limit)
    /\ (limit < 0 -> kept = (length ranking - Z.to_nat (- limit))%nat)
    /\ (forall i, i ∈ ranking
                  <-> (i < length toc)%nat /\ 0 < score_at toc query i)
    /\ StronglySorted (ranked (score_at toc query) id) ranking
    /\ words_of (toLowerCase query) terms
    /\ (forall l, words_of (toLowerCase query) l -> l = terms)
    /\ (forall i e, toc !! i = Some e ->
          let text := toLowerCase (toc_title e ++ str " " ++ toc_code e) in
          score_at toc query i
          = Z.of_nat (length (filter (fun t => includes text t = true) terms))
            + (if decide (toLowerCase (toc_code e) = toLowerCase query)
               then 100 else 0)
          /\ forall t, includes text t = true <-> infix_of t text)
    /\ ((forall t c, exists p,
            toLowerCase (t ++ str " " ++ c) = p ++ toLowerCase c) ->
        forall (e e' : TocEntry) (k' : nat),
          e ∈ toc -> exact_code_match query e ->
          ~ exact_code_match query e' ->
          res !! k' = Some e' ->
          exists k, (k < k')%nat /\ res !! k = Some e).
Proof.
  intros Hfetch.
  destruct (rank_entries_ranking toc query limit)
    as (ranking & Hres & Hmem & Hsorted).
  destruct (slice0_take limit ranking) as (kept & Hkept & Hpos & Hneg).
  rewrite Hkept in Hres.
  pose proof (split_ws_words (toLowerCase query)) as Hwords.
  fold (query_terms query) in Hwords.
  exists (rank_entries toc query limit), ranking, kept, (query_terms query).
  split; [|split; [|split; [|split; [|split; [|split; [|split;
    [|split; [|split]]]]]]]].
  - unfold searchDatasets. rewrite Hfetch. reflexivity.
  - exact Hres.
  - exact Hpos.
  - exact Hneg.
  - exact Hmem.
  - exact Hsorted.
  - exact Hwords.
  - intros l Hl. exact (words_of_unique _ _ _ Hl Hwords).
  - intros i e Hi. cbn zeta. split; [|intros t; apply includes_iff].
    unfold score_at. rewrite Hi, score_entry_formula. f_equal.
    unfold jsstring_eqb.
    destruct (decide (toLowerCase (toc_code e) = toLowerCase query)) as [E|E].
    + rewrite bool_decide_eq_true_2 by exact E. reflexivity.
    + rewrite bool_decide_eq_false_2 by exact E. reflexivity.
  - intros Hlower. eapply exact_match_first; eassumption.
Qed.

(** C5. The level of a geo code follows from its length, 2, 3, 4 or 5 units
    for country, nuts1, nuts2 and nuts3; a code of another length is an
    aggregate when it starts with "EU" or "EA" and is other when it does
    not. Every code of a parsed code list carries the level so derived. *)
Theorem level_derivation :
  (forall code : jsstring,
     (length code = 2%nat -> level_of_code code = country)
     /\ (length code = 3%nat -> level_of_code code = nuts1)
     /\ (length code = 4%nat -> level_of_code code = nuts2)
     /\ (length code = 5%nat -> level_of_code code = nuts3)
     /\ ((length code < 2 \/ 5 < length code)%nat ->
         (startsWith code (str "EU") = true
          \/ startsWith code (str "EA") = true ->
          level_of_code code = aggregate)
         /\ (startsWith code (str "EU") = false ->
             startsWith code (str "EA") = false ->
             level_of_code code = other)))
  /\ level_of_code (str "DE") = country
  /\ level_of_code (str "DE2") = nuts1
  /\ level_of_code (str "DE21") = nuts2
  /\ level_of_code (str "DE212") = nuts3
  /\ level_of_code (str "EU27_2020") = aggregate
  /\ (forall xml : jsstring,
        Forall (fun gc => geo_level gc = level_of_code (geo_code gc))
               (parseGeoCodes xml)).
Proof.
  split; [|repeat split; apply parseGeoCodes_level].
  intros code. unfold level_of_code.
  split; [|split; [|split; [|split]]]; try (intros ->; reflexivity).
  intros Hlen.
  rewrite (proj2 (Nat.eqb_neq (length code) 2)) by lia.
  rewrite (proj2 (Nat.eqb_neq (length code) 3)) by lia.
  rewrite (proj2 (Nat.eqb_neq (length code) 4)) by lia.
  rewrite (proj2 (Nat.eqb_neq (length code) 5)) by lia.
  split.
  - intros Hor. apply orb_true_iff in Hor. rewrite Hor. reflexivity.
  - intros -> ->. reflexivity.
Qed.


(** C7. Every dimension of the structure returned by [getDatasetStructure]
    carries at most 200 codes, the first 200 of its codelist; the
    codelist-backed dimensions come in the order in which the dimension ids
    are first declared; and when a time dimension is detected, one more
    dimension with the single placeholder code follows them as the last
    element. *)
Theorem structure_dimensions (datasetCode : jsstring) (env : Env)
    (st st' : State) (s : DatasetStructure) :
  getDatasetStructure datasetCode env st = (inr s, st') ->
  let xml := res_text (env_http env (structure_url datasetCode)) in
  Forall (fun d => (length (dd_values d) <= 200)%nat) (ds_dimensions s)
  /\ exists backed : list DatasetDimension,
       map dd_id backed = first_occurrences (map fst (dimRegex_matches xml))
       /\ (NoDup (map fst (dimRegex_matches xml)) ->
           map dd_id backed = map fst (dimRegex_matches xml))
       /\ Forall (fun d => exists clId : jsstring,
                    (dd_id d, clId) ∈ build_dimCodelistMap xml
                    /\ dd_values d
                       = take 200 (default []
                                     (Map_get clId (build_codelistMap xml))))
                 backed
       /\ match timeDimRegex_match xml with
          | Some timeId =>
              ds_dimensions s
              = backed ++ [ {| dd_id := timeId;
                               dd_name := str "Time period";
                               dd_values := [time_hint] |} ]
          | None => ds_dimensions s = backed
          end.
Proof.
  intros Heq. cbn zeta.
  destruct (getDatasetStructure_inr _ _ _ _ _ Heq) as (backed & Hloop & Hdims).
  cbn zeta in Hloop, Hdims.
  set (xml := res_text (env_http env (structure_url datasetCode))) in *.
  assert (Forall (fun d => exists clId : jsstring,
                    (dd_id d, clId) ∈ build_dimCodelistMap xml
                    /\ dd_values d
                       = take 200 (default []
                                     (Map_get clId (build_codelistMap xml))))
                 backed) as Htake.
  { apply Forall_forall. intros d Hd.
    apply list_elem_of_lookup_1 in Hd as [k Hk].
    destruct (Forall2_lookup_r _ _ _ _ _ Hloop Hk)
      as ([dimId clId] & Hentry & Hid & Hvalues).
    exists clId. split; [|exact Hvalues].
    rewrite Hid. eapply list_elem_of_lookup_2, Hentry. }
  assert (Forall (fun d => (length (dd_values d) <= 200)%nat) backed) as Hlen.
  { eapply Forall_impl; [exact Htake|]. intros d (clId & _ & ->).
    rewrite length_take. lia. }
  assert (map dd_id backed
          = first_occurrences (map fst (dimRegex_matches xml))) as Hids.
  { rewrite <- (Map_build_keys (dimRegex_matches xml) []).
    fold (build_dimCodelistMap xml).
    clear -Hloop. induction Hloop as [|entry d l r [Hid _] _ IH];
      [reflexivity|]. simpl. rewrite Hid, IH. reflexivity. }
  split.
  - rewrite Hdims. destruct (timeDimRegex_match xml); [|exact Hlen].
    apply Forall_app. split; [exact Hlen|].
    constructor; [simpl; lia|constructor].
  - exists backed. split; [exact Hids|]. split; [|split; [exact Htake|]].
    + intros Hnd. rewrite Hids. apply first_occurrences_NoDup, Hnd.
    + rewrite Hdims. destruct (timeDimRegex_match xml); reflexivity.
Qed.

End LookupResults.

(** ** The fetcher and the caches *)

Section FetcherResults.

Context `{JsHost}.

(** C8. In a sequence of calls of [rateLimitedFetch], each of which reads
    the clock again no earlier than its first reading plus the delay it
    asked for, a call that finds less than 350 ms elapsed since the last
    recorded dispatch waits for the remainder of the interval, then records
    the time and performs the request; any two consecutive recorded
    timestamps are at least 350 ms apart. *)
Theorem rateLimitedFetch_spacing (calls : list (jsstring * Env)) (st : State) :
  Forall (fun c => 0 <= tick_lag (env_tick (snd c))) calls ->
  MIN_REQUEST_INTERVAL_MS = 350
  /\ spaced 350 (lastRequestTime st :: dispatch_log calls st)
  /\ forall (url : jsstring) (env : Env) (st0 : State),
       let tk := env_tick env in
       let elapsed := tick_now tk - lastRequestTime st0 in
       (elapsed < 350 -> rate_delay (lastRequestTime st0) tk = 350 - elapsed)
       /\ (350 <= elapsed -> rate_delay (lastRequestTime st0) tk = 0)
       /\ rateLimitedFetch url env st0
          = (env_http env url,
             set_lastRequestTime
               (tick_now tk + rate_delay (lastRequestTime st0) tk + tick_lag tk)
               st0)
       /\ (0 <= tick_lag tk ->
           lastRequestTime st0 + 350
           <= lastRequestTime (snd (rateLimitedFetch url env st0)))
       /\ same_caches st0 (snd (rateLimitedFetch url env st0)).
Proof.
  intros Hlag. split; [reflexivity|]. split.
  - apply (dispatch_log_spaced calls Hlag st).
  - intros url env st0. cbn zeta.
    split; [|split; [|split; [|split]]];
      [| | | intros Hl; apply rate_dispatch_spacing, Hl |];
      unfold rate_delay, MIN_REQUEST_INTERVAL_MS.
    + intros Hlt. destruct (Z.ltb_spec (tick_now (env_tick env)
                                        - lastRequestTime st0) 350); lia.
    + intros Hge. destruct (Z.ltb_spec (tick_now (env_tick env)
                                        - lastRequestTime st0) 350); lia.
    + reflexivity.
    + apply rateLimitedFetch_caches.
Qed.

Lemma fetchToc_cache_cases (lang : jsstring) (env : Env) (st st' : State)
    (r : jsstring + list TocEntry) :
  fetchToc lang env st = (r, st') ->
  (cachedToc st' = cachedToc st /\ tocCachedAt st' = tocCachedAt st)
  \/ (res_ok (env_http env (toc_url lang)) = true
      /\ r = inr (parseToc (res_text (env_http env (toc_url lang))))
      /\ cachedToc st'
         = Some (parseToc (res_text (env_http env (toc_url lang))))
      /\ tocCachedAt st' = env_now env).
Proof.
  assert (fetchToc_refresh lang env st = (r, st') ->
          (cachedToc st' = cachedToc st /\ tocCachedAt st' = tocCachedAt st)
          \/ (res_ok (env_http env (toc_url lang)) = true
              /\ r = inr (parseToc (res_text (env_http env (toc_url lang))))
              /\ cachedToc st'
                 = Some (parseToc (res_text (env_http env (toc_url lang))))
              /\ tocCachedAt st' = env_now env)) as Hrefresh.
  { unfold fetchToc_refresh, rateLimitedFetch.
    destruct (res_ok (env_http env (toc_url lang))); cbn [negb];
      intros Heq; injection Heq as <- <-.
    - right. repeat split.
    - left. split; reflexivity. }
  unfold fetchToc. destruct (cachedToc st) as [toc|] eqn:Hc; [|exact Hrefresh].
  destruct (_ <? _); [|exact Hrefresh].
  intros Heq. injection Heq as <- <-. left. split; [exact Hc|reflexivity].
Qed.

Lemma resolveGeoCode_cache_cases (query : jsstring) (env : Env)
    (st st' : State) (r : jsstring + list GeoCode) :
  resolveGeoCode query env st = (r, st') ->
  (cachedGeoCodes st' = cachedGeoCodes st
   /\ geoCodesCachedAt st' = geoCodesCachedAt st)
  \/ (res_ok (env_http env geo_url) = true
      /\ cachedGeoCodes st'
         = Some (parseGeoCodes (res_text (env_http env geo_url)))
      /\ geoCodesCachedAt st' = env_now env).
Proof.
  assert (resolveGeoCode_refresh query env st = (r, st') ->
          (cachedGeoCodes st' = cachedGeoCodes st
           /\ geoCodesCachedAt st' = geoCodesCachedAt st)
          \/ (res_ok (env_http env geo_url) = true
              /\ cachedGeoCodes st'
                 = Some (parseGeoCodes (res_text (env_http env geo_url)))
              /\ geoCodesCachedAt st' = env_now env)) as Hrefresh.
  { unfold resolveGeoCode_refresh, rateLimitedFetch.
    destruct (res_ok (env_http env geo_url));
      intros Heq; injection Heq as <- <-.
    - right. repeat split.
    - left. split; reflexivity. }
  unfold resolveGeoCode.
  destruct (cachedGeoCodes st) as [cached|] eqn:Hc; [|exact Hrefresh].
  destruct (_ <? _); [exact Hrefresh|].
  intros Heq. injection Heq as <- <-. left. split; [exact Hc|reflexivity].
Qed.

(** C9. When the catalogue, or the geo code list, has to be refreshed and
    the fetch is answered with a status that is not 2xx, the operation
    ends with an error and both caches, snapshots and timestamps, are as
    they were. A cache changes only by a successful fetch, which installs
    the list parsed from the whole response body. *)
Theorem failed_refresh_keeps_cache (query lang : jsstring) (limit : Z)
    (env : Env) (st : State) :
  (toc_is_fresh (env_now env) st = false ->
   res_ok (env_http env (toc_url lang)) = false ->
   exists msg st',
     searchDatasets query lang limit env st = (inl msg, st')
     /\ same_caches st st')
  /\ (geo_is_fresh (env_now env) st = false ->
      res_ok (env_http env geo_url) = false ->
      exists msg st',
        resolveGeoCode query env st = (inl msg, st') /\ same_caches st st')
  /\ (forall r st',
        fetchToc lang env st = (r, st') ->
        (cachedToc st' = cachedToc st /\ tocCachedAt st' = tocCachedAt st)
        \/ (res_ok (env_http env (toc_url lang)) = true
            /\ r = inr (parseToc (res_text (env_http env (toc_url lang))))
            /\ cachedToc st'
               = Some (parseToc (res_text (env_http env (toc_url lang))))
            /\ tocCachedAt st' = env_now env))
  /\ (forall r st',
        resolveGeoCode query env st = (r, st') ->
        (cachedGeoCodes st' = cachedGeoCodes st
         /\ geoCodesCachedAt st' = geoCodesCachedAt st)
        \/ (res_ok (env_http env geo_url) = true
            /\ cachedGeoCodes st'
               = Some (parseGeoCodes (res_text (env_http env geo_url)))
            /\ geoCodesCachedAt st' = env_now env)).
Proof.
  split; [|split; [|split]].
  - intros Hstale Hok.
    destruct (fetchToc_refresh_failure lang env st Hok)
      as (msg & st' & Heq & Hsame).
    exists msg, st'. split; [|exact Hsame].
    unfold searchDatasets. rewrite fetchToc_stale by exact Hstale.
    rewrite Heq. reflexivity.
  - intros Hstale Hok.
    destruct (resolveGeoCode_refresh_failure query env st Hok)
      as (msg & st' & Heq & Hsame).
    exists msg, st'. split; [|exact Hsame].
    rewrite resolveGeoCode_stale by exact Hstale. exact Heq.
  - intros r st'. apply fetchToc_cache_cases.
  - intros r st'. apply resolveGeoCode_cache_cases.
Qed.

(** C10. The catalogue cache is not keyed by language. While the cache is
    fresh, [searchDatasets] searches the cached catalogue whatever language
    it is given and issues no fetch; in particular, after a call that
    fetched the catalogue in one language, a call made less than an hour of
    clock time later searches that catalogue, and its result does not
    depend on its own language argument. *)
Theorem fresh_catalog_ignores_lang (q1 q2 lang1 lang2 lang2' : jsstring)
    (lim1 lim2 : Z) (env1 env2 : Env) (st : State) :
  toc_is_fresh (env_now env1) st = false ->
  res_ok (env_http env1 (toc_url lang1)) = true ->
  env_now env2 - env_now env1 < TOC_CACHE_DURATION_MS ->
  let st1 := snd (searchDatasets q1 lang1 lim1 env1 st) in
  let fetched := parseToc (res_text (env_http env1 (toc_url lang1))) in
  searchDatasets q2 lang2 lim2 env2 st1
  = (inr (rank_entries fetched q2 lim2), st1)
  /\ searchDatasets q2 lang2 lim2 env2 st1
     = searchDatasets q2 lang2' lim2 env2 st1
  /\ (forall (lang lang' : jsstring) (env : Env) (st0 : State),
        toc_is_fresh (env_now env) st0 = true ->
        searchDatasets q2 lang lim2 env st0
        = searchDatasets q2 lang' lim2 env st0
        /\ snd (searchDatasets q2 lang lim2 env st0) = st0).
Proof.
  intros Hstale Hok Hclock. cbn zeta.
  assert (forall (lang : jsstring) (env : Env) (st0 : State)
                 (toc : list TocEntry),
            cachedToc st0 = Some toc ->
            env_now env - tocCachedAt st0 < TOC_CACHE_DURATION_MS ->
            searchDatasets q2 lang lim2 env st0
            = (inr (rank_entries toc q2 lim2), st0)) as Hfresh.
  { intros lang env st0 toc Hc Hage. unfold searchDatasets, fetchToc.
    rewrite Hc. destruct (Z.ltb_spec (env_now env - tocCachedAt st0)
                                     TOC_CACHE_DURATION_MS); [reflexivity|lia]. }
  destruct (fetchToc_refresh_success lang1 env1 st Hok)
    as (st' & Heq & Hc & Hat).
  assert (snd (searchDatasets q1 lang1 lim1 env1 st) = st') as ->.
  { unfold searchDatasets. rewrite fetchToc_stale by exact Hstale.
    rewrite Heq. reflexivity. }
  split; [|split].
  - apply Hfresh; [exact Hc | rewrite Hat; exact Hclock].
  - rewrite !(Hfresh _ env2 st' _ Hc) by (rewrite Hat; exact Hclock).
    reflexivity.
  - intros lang lang' env st0 Hf. unfold toc_is_fresh in Hf.
    destruct (cachedToc st0) as [toc|] eqn:Hc0; [|discriminate].
    apply Z.ltb_lt in Hf.
    rewrite !(Hfresh _ env st0 toc Hc0 Hf). split; reflexivity.
Qed.

End FetcherResults.

(** * The results on the examples *)

Lemma example_host_lower_suffix (t c : jsstring) :
  exists p,
    @toLowerCase example_host (t ++ str " " ++ c)
    = p ++ @toLowerCase example_host c.
Proof.
  exists (map lower_unit (t ++ str " ")). simpl.
  rewrite <- map_app, <- app_assoc. reflexivity.
Defined.

(** The cube of the scenario is consistent, and its six cells are the
    product of its two and three categories. *)
Lemma dense_values_invariant_witness :
  Forall2 (fun dimId size =>
             size = Z.of_nat (length (jd_index
                      (default empty_dimension
                               (js_dimension example_cube !! dimId)))))
          (js_id example_cube) (js_size example_cube)
  /\ Z.of_nat (length (r_values example_result))
     = product (map (fun d => Z.of_nat (length (rd_categories d)))
                    (r_dimensions example_result)).
Proof.
  assert (Forall2 (fun dimId size =>
             size = Z.of_nat (length (jd_index
                      (default empty_dimension
                               (js_dimension example_cube !! dimId)))))
          (js_id example_cube) (js_size example_cube)) as Hsizes.
  { repeat (constructor; [vm_compute; reflexivity|]). constructor. }
  split; [exact Hsizes|].
  apply (dense_values_invariant (H := example_host) (str "DEMO") example_cube).
  exact Hsizes.
Defined.

(** A response that declares two cells for one category: the dense array
    has two cells, the dimension one category. *)
Lemma dense_values_size_mismatch :
  let r := @decodeJsonStat example_host (str "DEMO") mismatched_cube in
  length (r_values r) = 2%nat
  /\ map (fun d => length (rd_categories d)) (r_dimensions r) = [1%nat]
  /\ Z.of_nat (length (r_values r))
     <> product (map (fun d => Z.of_nat (length (rd_categories d)))
                     (r_dimensions r)).
Proof.
  cbn zeta. split; [vm_compute; reflexivity|].
  split; [vm_compute; reflexivity|]. vm_compute. discriminate.
Qed.

Lemma index_round_trip_witness :
  exists idx : list Z,
    decode_indices 2 [2; 3] 5 = map Some idx
    /\ Forall2 (fun j sz => 0 <= j < sz) idx [2; 3]
    /\ encode_index [2; 3] idx = 5.
Proof.
  apply (index_round_trip [2; 3] 5).
  - repeat constructor; lia.
  - unfold product. simpl. lia.
Defined.

(** The table of the scenario: two rows for six positions. *)
Lemma table_rows_present_values_witness :
  r_dimensions example_result <> []
  /\ r_values example_result <> []
  /\ r_formattedData example_result
     = join [10%N] [ str "geo | time | Value"; str "------------------";
                     str "Germany | 2020 | 100"; str "France | 2022 | 142" ].
Proof.
  assert (r_dimensions example_result <> []) as Hd
    by (vm_compute; discriminate).
  assert (r_values example_result <> []) as Hv by (vm_compute; discriminate).
  split; [exact Hd|]. split; [exact Hv|].
  destruct (table_rows_present_values (H := example_host)
              (r_dimensions example_result) [2; 3] (r_values example_result))
    as (Hrows & _ & _ & _ & Hdec).
  destruct (Hrows Hd Hv) as [Heq _].
  etransitivity; [apply (Hdec (str "DEMO") example_cube)|].
  etransitivity; [exact Heq|]. vm_compute. reflexivity.
Defined.

(** A response without dimensions holds the value 42 at position 0, and the
    formatted table is the text "No data available.": the value has no
    row. *)
Lemma table_without_dimensions :
  let r := @decodeJsonStat example_host (str "DEMO") scalar_cube in
  r_values r = [Some 42]
  /\ r_formattedData r = str "No data available."
  /\ includes (r_formattedData r) (@num_to_string example_host 42) = false.
Proof. cbn zeta. repeat split; vm_compute; reflexivity. Qed.

(** The query "Main  GDP notes" has the terms main, gdp and notes: two of
    them occur in the text of the second entry of the example catalogue and
    one in that of the first, which is the order of the result. The query
    "Demo_Pop" puts the entry of that code first, ahead of the entry that
    names it in its title. *)
Lemma searchDatasets_ranking_witness :
  let env := example_env 2000 response_unavailable in
  fetchToc (str "en") env warm_state
  = (inr example_toc, warm_state)
  /\ searchDatasets (H := example_host) (str "Main  GDP notes") (str "en") 20
       env warm_state
     = (inr [ example_entry "NAMA_10_GDP" "GDP and main components";
              example_entry "TPS00001" "Notes on the demo_pop tables" ],
        warm_state)
  /\ words_of (@toLowerCase example_host (str "Main  GDP notes"))
              [str "main"; str "gdp"; str "notes"]
  /\ score_at (H := example_host) example_toc (str "Main  GDP notes") 1 = 2
  /\ exists (res : list TocEntry) (k : nat),
       searchDatasets (H := example_host) (str "Demo_Pop") (str "en") 20 env
         warm_state
       = (inr res, warm_state)
       /\ (k < 1)%nat
       /\ res !! k = Some (example_entry "DEMO_POP" "Population").
Proof.
  cbn zeta.
  assert (fetchToc (str "en")
            (example_env 2000 response_unavailable) warm_state
          = (inr example_toc, warm_state)) as Hfetch
    by (vm_compute; reflexivity).
  split; [exact Hfetch|].
  destruct (searchDatasets_ranking (H := example_host) (str "Main  GDP notes")
              (str "en") 20 (example_env 2000 response_unavailable)
              warm_state warm_state example_toc Hfetch)
    as (res & ranking & kept & terms & Hs & _ & _ & _ & _ & _ & Hwords
        & Hunique & Hscore & _).
  assert (terms = [str "main"; str "gdp"; str "notes"]) as Hterms.
  { rewrite <- (Hunique _ (split_ws_words _)). vm_compute. reflexivity. }
  rewrite Hterms in Hwords, Hscore.
  split; [|split; [exact Hwords|split]].
  - rewrite Hs. f_equal. f_equal.
    assert (searchDatasets (H := example_host) (str "Main  GDP notes")
              (str "en") 20 (example_env 2000 response_unavailable) warm_state
            = (inr [ example_entry "NAMA_10_GDP" "GDP and main components";
                     example_entry "TPS00001" "Notes on the demo_pop tables" ],
               warm_state)) as Hc by (vm_compute; reflexivity).
    rewrite Hc in Hs. injection Hs as <-. reflexivity.
  - destruct (Hscore 1%nat
                (example_entry "NAMA_10_GDP" "GDP and main components")
                eq_refl) as [Hvalue _].
    rewrite Hvalue. vm_compute. reflexivity.
  - destruct (searchDatasets_ranking (H := example_host) (str "Demo_Pop")
                (str "en") 20 (example_env 2000 response_unavailable)
                warm_state warm_state example_toc Hfetch)
      as (res2 & ranking2 & kept2 & terms2 & Hs2 & _ & _ & _ & _ & _ & _ & _
          & _ & Hfirst).
    assert (res2 = [ example_entry "DEMO_POP" "Population";
                     example_entry "TPS00001" "Notes on the demo_pop tables" ])
      as Hres2.
    { assert (searchDatasets (H := example_host) (str "Demo_Pop") (str "en") 20
                (example_env 2000 response_unavailable) warm_state
              = (inr [ example_entry "DEMO_POP" "Population";
                       example_entry "TPS00001" "Notes on the demo_pop tables" ],
                 warm_state)) as Hc by (vm_compute; reflexivity).
      rewrite Hc in Hs2. injection Hs2 as <-. reflexivity. }
    exists res2.
    destruct (Hfirst example_host_lower_suffix
                (example_entry "DEMO_POP" "Population")
                (example_entry "TPS00001" "Notes on the demo_pop tables") 1%nat)
      as (k & Hk & Hlook).
    + apply list_elem_of_lookup. exists 2%nat. reflexivity.
    + vm_compute. reflexivity.
    + vm_compute. discriminate.
    + rewrite Hres2. reflexivity.
    + exists k. split; [exact Hs2|]. split; [exact Hk|exact Hlook].
Defined.

(** The specification read to the letter fails twice. With the title [ab]
    and the code [cd] the term [bc] occurs in the title followed at once by
    the code, so the entry has a positive score in the words of the
    specification, but the search returns nothing: the text searched is
    [ab cd]. And of the two entries that the query "Demo_Pop" ranks, the
    limit -1 returns the first one: the result is not cut to [limit]
    entries, and it is not all the entries of positive score either. *)
Lemma searchDatasets_specification_gap :
  let env := example_env 2000 response_unavailable in
  score_as_specified (H := example_host) (str "bc") (example_entry "cd" "ab")
  = 1
  /\ searchDatasets (H := example_host) (str "bc") (str "en") 20 env
       short_state
     = (inr [], short_state)
  /\ searchDatasets (H := example_host) (str "Demo_Pop") (str "en") 20 env
       warm_state
     = (inr [ example_entry "DEMO_POP" "Population";
              example_entry "TPS00001" "Notes on the demo_pop tables" ],
        warm_state)
  /\ searchDatasets (H := example_host) (str "Demo_Pop") (str "en") (-1) env
       warm_state
     = (inr [ example_entry "DEMO_POP" "Population" ], warm_state).
Proof. cbn zeta. repeat split; vm_compute; reflexivity. Qed.

Lemma level_derivation_witness :
  length (str "DE212") = 5%nat /\ level_of_code (str "DE212") = nuts3.
Proof.
  split; [reflexivity|].
  destruct (@level_derivation example_host) as [Hlevel _].
  destruct (Hlevel (str "DE212")) as (_ & _ & _ & H5 & _).
  apply H5. reflexivity.
Defined.


(** The structure read from the example document: two codelist-backed
    dimensions and the time dimension. *)
Lemma structure_dimensions_witness :
  let env := example_env 0 (response_ok (str "document")) in
  exists (s : DatasetStructure) (st' : State),
    getDatasetStructure (H := example_host) (str "demo_pjan") env initial_state
    = (inr s, st')
    /\ Forall (fun d => (length (dd_values d) <= 200)%nat) (ds_dimensions s)
    /\ map dd_id (ds_dimensions s)
       = [str "freq"; str "geo"; str "TIME_PERIOD"].
Proof.
  cbn zeta. eexists _, _. split; [vm_compute; reflexivity|].
  split; [|vm_compute; reflexivity].
  eapply proj1.
  eapply (structure_dimensions (H := example_host) (str "demo_pjan")
           (example_env 0 (response_ok (str "document"))) initial_state).
  vm_compute. reflexivity.
Defined.

(** Three calls at 100, 120 and 2000 ms are dispatched at 350, 700 and
    2000 ms. *)
Lemma rateLimitedFetch_spacing_witness :
  dispatch_log example_calls initial_state
  = [350; 700; 2000]
  /\ spaced 350 (0 :: dispatch_log example_calls
                       initial_state).
Proof.
  split; [vm_compute; reflexivity|].
  destruct (rateLimitedFetch_spacing example_calls initial_state)
    as (_ & Hspaced & _).
  - repeat constructor; simpl; lia.
  - exact Hspaced.
Defined.

(** A first search answered with status 503 fails and caches nothing. *)
Lemma failed_refresh_keeps_cache_witness :
  let env := example_env 1000 response_unavailable in
  exists msg st',
    searchDatasets (H := example_host) (str "gdp") (str "en") 20 env
      initial_state = (inl msg, st')
    /\ same_caches initial_state st'.
Proof.
  cbn zeta.
  destruct (failed_refresh_keeps_cache (H := example_host) (str "gdp")
              (str "en") 20 (example_env 1000 response_unavailable)
              initial_state) as (Htoc & _).
  apply Htoc; reflexivity.
Defined.

(** A search in English fills the cache at 1000 ms; a search at 5000 ms
    gives the same result in French and in German. *)
Lemma fresh_catalog_ignores_lang_witness :
  let env1 := example_env 1000 (response_ok example_catalogue) in
  let env2 := example_env 5000 response_unavailable in
  let st1 := snd (searchDatasets (H := example_host) (str "gdp") (str "en") 20
                    env1 initial_state) in
  searchDatasets (H := example_host) (str "gdp") (str "fr") 20 env2 st1
  = searchDatasets (H := example_host) (str "gdp") (str "de") 20 env2 st1.
Proof.
  cbn zeta.
  destruct (fresh_catalog_ignores_lang (H := example_host) (str "gdp")
              (str "gdp") (str "en") (str "fr") (str "de") 20 20
              (example_env 1000 (response_ok example_catalogue))
              (example_env 5000 response_unavailable) initial_state)
    as (_ & Heq & _).
  - reflexivity.
  - reflexivity.
  - vm_compute. reflexivity.
  - exact Heq.
Defined.

(** * Further properties *)

(** ** Splitting and joining *)

Lemma join_cons2 (sep x y : jsstring) (l : list jsstring) :
  join sep (x :: y :: l) = x ++ sep ++ join sep (y :: l).
Proof. reflexivity. Qed.

Lemma split_on_go_no_sep (sep : N) (p cur : jsstring) :
  sep ∉ p -> split_on_go sep cur p = [rev cur ++ p].
Proof.
  revert cur. induction p as [|c p IH]; intros cur Hp; simpl.
  - rewrite app_nil_r. reflexivity.
  - apply not_elem_of_cons in Hp as [Hc Hp].
    rewrite (proj2 (N.eqb_neq c sep)) by congruence.
    rewrite IH by exact Hp. simpl. rewrite <- app_assoc. reflexivity.
Qed.

Lemma split_on_go_sep (sep : N) (p cur s : jsstring) :
  sep ∉ p ->
  split_on_go sep cur (p ++ sep :: s) = (rev cur ++ p) :: split_on_go sep [] s.
Proof.
  revert cur. induction p as [|c p IH]; intros cur Hp; simpl.
  - rewrite N.eqb_refl, app_nil_r. reflexivity.
  - apply not_elem_of_cons in Hp as [Hc Hp].
    rewrite (proj2 (N.eqb_neq c sep)) by congruence.
    rewrite IH by exact Hp. simpl. rewrite <- app_assoc. reflexivity.
Qed.

(** Splitting a joined text gives the parts back when no part holds the
    separator. *)
Lemma split_on_join (sep : N) (parts : list jsstring) :
  parts <> [] ->
  Forall (fun p => sep ∉ p) parts ->
  split_on sep (join [sep] parts) = parts.
Proof.
  intros Hne Hparts. unfold split_on.
  induction Hparts as [|p parts Hp Hparts IH]; [contradiction|].
  destruct parts as [|q parts].
  - simpl. apply split_on_go_no_sep, Hp.
  - rewrite join_cons2. cbn [app].
    rewrite split_on_go_sep by exact Hp. simpl rev. cbn [app].
    rewrite IH by discriminate. reflexivity.
Qed.

Lemma split_on_go_length (sep : N) (s : list N) (cur : jsstring) :
  length (split_on_go sep cur s) = S (length (filter (fun c => c = sep) s)).
Proof.
  revert cur. induction s as [|c s IH]; intros cur.
  - reflexivity.
  - cbn [split_on_go]. rewrite filter_cons.
    destruct (N.eqb_spec c sep) as [->|Hne].
    + rewrite decide_True by reflexivity. cbn [length]. rewrite IH.
      reflexivity.
    + rewrite decide_False by exact Hne. apply IH.
Qed.

Lemma split_on_two_columns (sep : N) (s : list N) :
  (2 <=? length (split_on sep s))%nat = bool_decide (sep ∈ s).
Proof.
  unfold split_on. rewrite split_on_go_length.
  destruct (decide (sep ∈ s)) as [Hin|Hnin].
  - rewrite bool_decide_eq_true_2 by exact Hin. apply Nat.leb_le.
    assert (sep ∈ filter (fun c => c = sep) s) as Hf
      by (apply list_elem_of_filter; split; [reflexivity|exact Hin]).
    destruct (filter (fun c => c = sep) s); [inversion Hf|simpl; lia].
  - rewrite bool_decide_eq_false_2 by exact Hnin. apply Nat.leb_gt.
    assert (filter (fun c => c = sep) s = []) as ->; [|simpl; lia].
    apply elem_of_nil_inv. intros c Hc.
    apply list_elem_of_filter in Hc as [-> Hc]. contradiction.
Qed.

(** The units of a piece are units of the text, and none is the
    separator. *)
Lemma split_on_go_pieces (sep : N) (s cur : jsstring) :
  forall p, p ∈ split_on_go sep cur s ->
    forall c, c ∈ p -> c ∈ cur \/ (c ∈ s /\ c <> sep).
Proof.
  revert cur. induction s as [|c0 s IH]; intros cur p Hp c Hc; simpl in Hp.
  - apply list_elem_of_singleton in Hp as ->. left.
    apply elem_of_rev. exact Hc.
  - destruct (N.eqb_spec c0 sep) as [->|Hne].
    + apply elem_of_cons in Hp as [->|Hp].
      * left. apply elem_of_rev. exact Hc.
      * destruct (IH [] p Hp c Hc) as [Hnil|[Hin Hcs]];
          [inversion Hnil|].
        right. split; [apply elem_of_cons; right; exact Hin|exact Hcs].
    + destruct (IH (c0 :: cur) p Hp c Hc) as [Hcur|[Hin Hcs]].
      * apply elem_of_cons in Hcur as [->|Hcur]; [|left; exact Hcur].
        right. split; [apply elem_of_cons; left; reflexivity|exact Hne].
      * right. split; [apply elem_of_cons; right; exact Hin|exact Hcs].
Qed.

Lemma split_on_go_head (sep : N) (s cur : jsstring) :
  exists p rest suf,
    split_on_go sep cur s = p :: rest /\ p = rev cur ++ suf.
Proof.
  revert cur. induction s as [|c s IH]; intros cur; simpl.
  - exists (rev cur), [], []. rewrite app_nil_r. split; reflexivity.
  - destruct (N.eqb c sep).
    + exists (rev cur), (split_on_go sep [] s), []. rewrite app_nil_r.
      split; reflexivity.
    + destruct (IH (c :: cur)) as (p & rest & suf & Heq & ->).
      exists (rev (c :: cur) ++ suf), rest, (c :: suf). split; [exact Heq|].
      simpl. rewrite <- app_assoc. reflexivity.
Qed.

(** ** Query strings *)

Lemma foldl_params_append (k : jsstring) (vs : list jsstring)
    (params : list (jsstring * jsstring)) :
  foldl (fun ps v => params_append k v ps) params vs
  = params ++ map (pair k) vs.
Proof.
  revert params. induction vs as [|v vs IH]; intros params; simpl.
  - rewrite app_nil_r. reflexivity.
  - rewrite IH. unfold params_append. rewrite <- app_assoc. reflexivity.
Qed.

Lemma foldl_append_filter (filters : list (jsstring * FilterValue))
    (params : list (jsstring * jsstring)) :
  foldl append_filter params filters
  = params ++ flat_map (fun e => map (pair (fst e)) (filter_values (snd e)))
                       filters.
Proof.
  revert params. induction filters as [|[k value] filters IH]; intros params.
  - simpl. rewrite app_nil_r. reflexivity.
  - cbn [foldl flat_map]. rewrite IH. unfold append_filter. cbn [fst snd].
    destruct value as [v|vs]; cbn [filter_values].
    + unfold params_append. rewrite <- ?app_assoc. reflexivity.
    + rewrite foldl_params_append, <- !app_assoc. reflexivity.
Qed.

Section QueryResults.

Context `{JsHost}.

(** X1. The query of a data request or of a download link is [format],
    then [lang] in upper case, then one parameter for each value of each
    filter, in the order of the filters and of their values; a filter named
    [format] or [lang] is added after the fixed two and replaces neither,
    and a filter with an empty array adds nothing. *)
Theorem query_parameters (format lang : jsstring)
    (filters : list (jsstring * FilterValue)) :
  build_params format lang filters
  = (str "format", format) :: (str "lang", toUpperCase lang)
    :: flat_map (fun e => map (pair (fst e)) (filter_values (snd e))) filters.
Proof.
  unfold build_params. cbn zeta. rewrite foldl_append_filter. reflexivity.
Qed.

Lemma params_toString_cons (enc : jsstring -> jsstring) (k v : jsstring)
    (p : jsstring * jsstring) (params : list (jsstring * jsstring)) :
  params_toString enc ((k, v) :: p :: params)
  = enc k ++ str "=" ++ enc v ++ str "&" ++ params_toString enc (p :: params).
Proof.
  unfold params_toString. cbn [map]. rewrite join_cons2. cbn [fst snd].
  rewrite <- ?app_assoc. reflexivity.
Qed.

(** X2. The download link of [getDatasetUrl] and the URL that
    [getDatasetData] requests for the same dataset, filters and language
    are the same text but for the value of [format], and the outcome of
    [getDatasetData] depends on the network through the response at that
    URL only. *)
Theorem download_link_matches_request (reader : BodyReader)
    (datasetCode : jsstring) (filters : list (jsstring * FilterValue))
    (lang : jsstring) :
  let enc := form_encode reader in
  let request := dataset_url enc (str "JSON") datasetCode filters lang in
  (exists rest : jsstring,
     getDatasetUrl enc datasetCode filters lang
     = STATISTICS_URL ++ str "/" ++ toUpperCase datasetCode ++ str "?"
       ++ enc (str "format") ++ str "=" ++ enc (str "TSV") ++ rest
     /\ request
        = STATISTICS_URL ++ str "/" ++ toUpperCase datasetCode ++ str "?"
          ++ enc (str "format") ++ str "=" ++ enc (str "JSON") ++ rest)
  /\ (forall (env env' : Env) (st : State),
        env_tick env = env_tick env' ->
        env_http env request = env_http env' request ->
        getDatasetData reader datasetCode filters lang env st
        = getDatasetData reader datasetCode filters lang env' st).
Proof.
  cbn zeta. split.
  - exists (str "&"
            ++ params_toString (form_encode reader)
                 ((str "lang", toUpperCase lang)
                  :: flat_map (fun e => map (pair (fst e))
                                            (filter_values (snd e))) filters)).
    unfold getDatasetUrl, dataset_url. rewrite !query_parameters.
    rewrite !params_toString_cons. rewrite <- ?app_assoc. split; reflexivity.
  - intros env env' st Htick Hhttp.
    unfold getDatasetData, rateLimitedFetch. rewrite Htick, Hhttp.
    reflexivity.
Qed.

(** X3. When the host's encoder produces neither [&] nor [=], splitting
    the query on [&] and each piece on [=] gives back the encoded name and
    value of every parameter, one piece for each: a filter name or value
    cannot add, drop or split a parameter. *)
Theorem query_keeps_parameters_apart (enc : jsstring -> jsstring)
    (format lang : jsstring) (filters : list (jsstring * FilterValue)) :
  (forall s, 38%N ∉ enc s) ->
  (forall s, 61%N ∉ enc s) ->
  map (split_on 61)
      (split_on 38 (params_toString enc (build_params format lang filters)))
  = map (fun p => [enc (fst p); enc (snd p)])
        (build_params format lang filters).
Proof.
  intros Hamp Heq. unfold params_toString.
  change (str "&") with [38%N]. rewrite split_on_join.
  - rewrite map_map. apply map_ext. intros [k v]. cbn [fst snd].
    change (str "=") with [61%N]. unfold split_on. cbn [app].
    rewrite split_on_go_sep by apply Heq.
    rewrite split_on_go_no_sep by apply Heq. reflexivity.
  - rewrite query_parameters. discriminate.
  - apply Forall_forall. intros piece Hpiece.
    change (piece ∈ (fun p => enc (fst p) ++ str "=" ++ enc (snd p))
                    <$> build_params format lang filters) in Hpiece.
    apply list_elem_of_fmap in Hpiece as ([k v] & -> & _). cbn [fst snd].
    change (str "=") with [61%N]. intros Hin.
    apply elem_of_app in Hin as [Hin|Hin]; [exact (Hamp _ Hin)|].
    apply elem_of_cons in Hin as [Hin|Hin]; [discriminate|].
    exact (Hamp _ Hin).
Qed.

End QueryResults.

(** ** The catalogue parser *)

Lemma trim_start_suffix (s : jsstring) : exists pre, s = pre ++ trim_start s.
Proof.
  induction s as [|c s [pre IH]]; simpl.
  - exists []. reflexivity.
  - destruct (is_whitespace c).
    + exists (c :: pre). simpl. rewrite <- IH. reflexivity.
    + exists []. reflexivity.
Qed.

Lemma trim_start_head (s : jsstring) (c : N) (t : jsstring) :
  trim_start s = c :: t -> is_whitespace c = false.
Proof.
  induction s as [|d s IH]; simpl; [discriminate|].
  destruct (is_whitespace d) eqn:Hd; [exact IH|].
  intros Heq. injection Heq as <- _. exact Hd.
Qed.

Lemma trim_prefix (s : jsstring) : exists suf, trim_start s = trim s ++ suf.
Proof.
  unfold trim. destruct (trim_start_suffix (rev (trim_start s))) as [pre Hpre].
  exists (rev pre). rewrite <- rev_app_distr, <- Hpre, rev_involutive.
  reflexivity.
Qed.

Lemma trim_head (s : jsstring) (c : N) (t : jsstring) :
  trim s = c :: t -> is_whitespace c = false.
Proof.
  intros Heq. destruct (trim_prefix s) as [suf Hsuf]. rewrite Heq in Hsuf.
  apply (trim_start_head s c (t ++ suf)). exact Hsuf.
Qed.

Lemma trim_elem (s : jsstring) (c : N) : c ∈ trim s -> c ∈ s.
Proof.
  intros Hc. destruct (trim_prefix s) as [suf Hsuf].
  destruct (trim_start_suffix s) as [pre Hpre].
  rewrite Hpre, Hsuf. apply elem_of_app. right.
  apply elem_of_app. left. exact Hc.
Qed.

Lemma opt_str_or_piece (parts : list jsstring) (i : nat) (c : N) :
  c ∈ opt_str_or (parts !! i) [] -> exists p, p ∈ parts /\ c ∈ p.
Proof.
  destruct (parts !! i) as [p|] eqn:Hp; simpl.
  - unfold str_or. destruct (is_empty p); [intros Hc; inversion Hc|].
    intros Hc. exists p. split; [eapply list_elem_of_lookup_2, Hp|exact Hc].
  - intros Hc. inversion Hc.
Qed.

(** X4. The catalogue has one entry for each line after the header line
    that, once trimmed, holds a tab; the header line, blank lines and lines
    of a single column give no entry. *)
Theorem parseToc_entry_count (text : jsstring) :
  length (parseToc text)
  = length (filter (fun l : jsstring => 9%N ∈ trim l)
                   (drop 1 (split_on 10 text))).
Proof.
  unfold parseToc. generalize (drop 1 (split_on 10 text)). intros lines.
  induction lines as [|l lines IH]; [reflexivity|].
  cbn [parseTocLines]. rewrite filter_cons.
  destruct (trim l) as [|c line] eqn:Hline.
  - cbn [is_empty]. rewrite decide_False by apply not_elem_of_nil. exact IH.
  - cbn [is_empty]. unfold parseTocLine.
    rewrite (split_on_two_columns 9 (c :: line)).
    destruct (decide (9%N ∈ c :: line)) as [Hin|Hnin].
    + rewrite bool_decide_eq_true_2 by exact Hin.
      rewrite decide_True by exact Hin. cbn [length]. rewrite IH.
      reflexivity.
    + rewrite bool_decide_eq_false_2 by exact Hnin.
      rewrite decide_False by exact Hnin. exact IH.
Qed.

(** X5. Every entry of the catalogue has a title that is not empty and
    does not start with white space, and neither its title nor its code
    holds a tab or a line feed. *)
Theorem parseToc_entry_fields (text : jsstring) :
  Forall (fun e =>
            (exists c t, toc_title e = c :: t /\ is_whitespace c = false)
            /\ (forall c, c ∈ toc_title e -> c <> 9%N /\ c <> 10%N)
            /\ (forall c, c ∈ toc_code e -> c <> 9%N /\ c <> 10%N))
         (parseToc text).
Proof.
  unfold parseToc.
  assert (Forall (fun l : jsstring => 10%N ∉ l) (drop 1 (split_on 10 text)))
    as Hlines.
  { apply Forall_drop. apply Forall_forall. intros l Hl Hin.
    destruct (split_on_go_pieces 10 text [] l Hl 10%N Hin) as [Hnil|[_ Hne]];
      [inversion Hnil|contradiction]. }
  induction Hlines as [|l lines Hl _ IH]; [constructor|].
  cbn [parseTocLines].
  destruct (trim l) as [|c line] eqn:Hline; [exact IH|]. cbn [is_empty].
  unfold parseTocLine. destruct (2 <=? _)%nat; [|exact IH].
  constructor; [|exact IH]. cbn [toc_title toc_code].
  assert (forall p, p ∈ split_on 9 (c :: line) ->
            forall x, x ∈ p -> x <> 9%N /\ x <> 10%N) as Hpieces.
  { intros p Hp x Hx.
    destruct (split_on_go_pieces 9 (c :: line) [] p Hp x Hx)
      as [Hnil|[Hin Hne]]; [inversion Hnil|].
    split; [exact Hne|]. intros ->. apply Hl, trim_elem. rewrite Hline.
    exact Hin. }
  pose proof (trim_head l c line Hline) as Hc.
  split; [|split].
  - unfold split_on. cbn [split_on_go].
    assert ((c =? 9)%N = false) as ->.
    { apply N.eqb_neq. intros ->. vm_compute in Hc. discriminate. }
    destruct (split_on_go_head 9 line [c]) as (p & rest & suf & -> & ->).
    exists c, suf. split; [reflexivity|exact Hc].
  - intros x Hx. apply opt_str_or_piece in Hx as (p & Hp & Hx).
    exact (Hpieces p Hp x Hx).
  - intros x Hx. apply opt_str_or_piece in Hx as (p & Hp & Hx).
    exact (Hpieces p Hp x Hx).
Qed.

(** ** More on searchDatasets *)

Lemma stable_sort_id {A : Type} (before : A -> A -> bool) (l : list A) :
  (forall x y, x ∈ l -> y ∈ l -> before x y = true) ->
  stable_sort before l = l.
Proof.
  induction l as [|x l IH]; intros Hall; [reflexivity|].
  change (sort_insert before x (stable_sort before l) = x :: l).
  rewrite IH.
  - destruct l as [|y l]; [reflexivity|]. simpl.
    rewrite Hall; [reflexivity| |].
    + apply elem_of_cons. left. reflexivity.
    + apply elem_of_cons. right. apply elem_of_cons. left. reflexivity.
  - intros a b Ha Hb. apply Hall; apply elem_of_cons; right; assumption.
Qed.

Section SearchEdges.

Context `{JsHost}.

(** X6. For limits that are not negative, the result of a search with a
    smaller limit is the beginning of the result with a larger limit, and
    a result never has more entries than its limit. *)
Theorem rank_entries_prefix (toc : list TocEntry) (query : jsstring)
    (n m : Z) :
  0 <= n <= m ->
  rank_entries toc query n = take (Z.to_nat n) (rank_entries toc query m)
  /\ (length (rank_entries toc query n) <= Z.to_nat n)%nat.
Proof.
  intros Hnm. unfold rank_entries. cbn zeta.
  rewrite !slice0_nonneg by lia.
  rewrite <- !firstn_map. split.
  - rewrite take_take. f_equal. lia.
  - rewrite length_take. lia.
Qed.

(** X7. A query without terms, empty or all white space, gives every
    entry the score 0 unless its code is the whole query, case aside: the
    result lists those entries only, in catalogue order, up to the limit. *)
Theorem search_without_terms (toc : list TocEntry) (query : jsstring)
    (limit : Z) :
  query_terms query = [] ->
  0 <= limit ->
  rank_entries toc query limit
  = take (Z.to_nat limit)
         (filter (fun e => toLowerCase (toc_code e) = toLowerCase query) toc).
Proof.
  intros Hterms Hlimit. unfold rank_entries. cbn zeta.
  fold (query_terms query). rewrite Hterms.
  rewrite slice0_nonneg by exact Hlimit. rewrite <- firstn_map. f_equal.
  set (sc := score_entry [] (toLowerCase query)).
  assert (forall e, sc e = if jsstring_eqb (toLowerCase (toc_code e))
                                            (toLowerCase query)
                           then 100 else 0) as Hsc.
  { intros e. unfold sc, score_entry. cbn [foldl].
    destruct (jsstring_eqb _ _); reflexivity. }
  rewrite stable_sort_id.
  - rewrite filter_map_comm, map_map. cbn [fst snd]. rewrite map_id.
    apply list_filter_iff. intros e. rewrite Hsc.
    destruct (jsstring_eqb _ _) eqn:E.
    + apply jsstring_eqb_eq in E. split; [intros _; exact E|lia].
    + split; [lia|]. intros Heq. apply jsstring_eqb_eq in Heq. congruence.
  - intros x y Hx Hy.
    assert (forall it, it ∈ filter (fun item : TocEntry * Z => 0 < snd item)
                             (map (fun entry => (entry, sc entry)) toc) ->
                       snd it = 100) as Hkept.
    { intros it Hit. apply list_elem_of_filter in Hit as [Hpos Hit].
      change (it ∈ (fun entry => (entry, sc entry)) <$> toc) in Hit.
      apply list_elem_of_fmap in Hit as (e & -> & _). cbn [snd] in *.
      rewrite Hsc in *. destruct (jsstring_eqb _ _); [reflexivity|lia]. }
    rewrite (Hkept x Hx), (Hkept y Hy). reflexivity.
Qed.

End SearchEdges.

(** ** More on getDatasetStructure *)

Lemma Map_get_set {V : Type} (k k' : jsstring) (v : V)
    (m : list (jsstring * V)) :
  Map_get k' (Map_set k v m)
  = if decide (k = k') then Some v else Map_get k' m.
Proof.
  induction m as [|[k0 v0] m IH]; simpl; unfold jsstring_eqb.
  - destruct (decide (k = k')) as [->|Hne].
    + rewrite bool_decide_eq_true_2 by reflexivity. reflexivity.
    + rewrite bool_decide_eq_false_2 by exact Hne. reflexivity.
  - destruct (decide (k0 = k)) as [->|Hk0].
    + rewrite (bool_decide_eq_true_2 (k = k)) by reflexivity. simpl.
      unfold jsstring_eqb. destruct (decide (k = k')) as [->|Hne].
      * rewrite bool_decide_eq_true_2 by reflexivity. reflexivity.
      * rewrite !bool_decide_eq_false_2 by exact Hne. reflexivity.
    + rewrite (bool_decide_eq_false_2 (k0 = k)) by exact Hk0. simpl.
      unfold jsstring_eqb. rewrite IH.
      destruct (decide (k0 = k')) as [->|Hne0].
      * rewrite bool_decide_eq_true_2 by reflexivity.
        rewrite decide_False by congruence. reflexivity.
      * rewrite bool_decide_eq_false_2 by exact Hne0. reflexivity.
Qed.

Lemma Map_get_app {V : Type} (k : jsstring) (m1 m2 : list (jsstring * V)) :
  Map_get k (m1 ++ m2)
  = match Map_get k m1 with Some v => Some v | None => Map_get k m2 end.
Proof.
  induction m1 as [|[k0 v0] m1 IH]; simpl; [reflexivity|].
  destruct (jsstring_eqb k0 k); [reflexivity|exact IH].
Qed.

(** Looking a key up in a Map built by successive [set] gives the value of
    the last pair with that key. *)
Lemma Map_get_build {V : Type} (k : jsstring) (l m : list (jsstring * V)) :
  Map_get k (foldl (fun m p => Map_set (fst p) (snd p) m) m l)
  = match Map_get k (rev l) with Some v => Some v | None => Map_get k m end.
Proof.
  revert m. induction l as [|[k0 v0] l IH]; intros m; [reflexivity|].
  cbn [foldl rev fst snd]. rewrite IH, Map_get_app, Map_get_set.
  destruct (Map_get k (rev l)); [reflexivity|]. simpl. unfold jsstring_eqb.
  destruct (decide (k0 = k)) as [->|Hne].
  - rewrite bool_decide_eq_true_2 by reflexivity. reflexivity.
  - rewrite bool_decide_eq_false_2 by exact Hne. reflexivity.
Qed.

Lemma Map_set_NoDup {V : Type} (k : jsstring) (v : V)
    (m : list (jsstring * V)) :
  NoDup (map fst m) -> NoDup (map fst (Map_set k v m)).
Proof.
  intros Hnd. rewrite Map_set_keys.
  destruct (decide (k ∈ map fst m)) as [Hin|Hnin].
  - rewrite bool_decide_eq_true_2 by exact Hin. exact Hnd.
  - rewrite bool_decide_eq_false_2 by exact Hnin.
    apply NoDup_app. split; [exact Hnd|]. split; [|apply NoDup_singleton].
    intros x Hx Hx'. apply list_elem_of_singleton in Hx' as ->. contradiction.
Qed.

Lemma Map_build_NoDup {V : Type} (l m : list (jsstring * V)) :
  NoDup (map fst m) ->
  NoDup (map fst (foldl (fun m p => Map_set (fst p) (snd p) m) m l)).
Proof.
  revert m. induction l as [|[k v] l IH]; intros m Hnd; [exact Hnd|].
  cbn [foldl]. apply IH, Map_set_NoDup, Hnd.
Qed.

Lemma Map_get_elem {V : Type} (k : jsstring) (v : V)
    (m : list (jsstring * V)) :
  NoDup (map fst m) -> (k, v) ∈ m -> Map_get k m = Some v.
Proof.
  induction m as [|[k0 v0] m IH]; intros Hnd Hin; [inversion Hin|].
  cbn [map fst] in Hnd. apply NoDup_cons in Hnd as [Hk0 Hnd].
  simpl. unfold jsstring_eqb.
  apply elem_of_cons in Hin as [Heq|Hin].
  - injection Heq as -> ->. rewrite bool_decide_eq_true_2 by reflexivity.
    reflexivity.
  - rewrite bool_decide_eq_false_2; [apply IH; assumption|].
    intros ->. apply Hk0. change (k ∈ fst <$> m).
    apply list_elem_of_fmap. exists (k, v). split; [reflexivity|exact Hin].
Qed.

Section StructureEdges.

Context `{JsHost}.

(** The codes that the document gives under a codelist id are those of
    its last block of that id. *)
Lemma build_codelistMap_get (xml clId : jsstring) :
  Map_get clId (build_codelistMap xml)
  = Map_get clId
      (rev (map (fun clMatch =>
                   (fst clMatch,
                    map (fun codeMatch => {| ci_id := fst codeMatch;
                                             ci_name := snd codeMatch |})
                        (codeRegex_matches (snd clMatch))))
                (clRegex_matches xml))).
Proof.
  unfold build_codelistMap.
  set (f := fun clMatch : jsstring * jsstring =>
              (fst clMatch,
               map (fun codeMatch => {| ci_id := fst codeMatch;
                                        ci_name := snd codeMatch |})
                   (codeRegex_matches (snd clMatch)))).
  assert (forall l m,
            foldl (fun m clMatch =>
                     Map_set (fst clMatch)
                       (map (fun codeMatch => {| ci_id := fst codeMatch;
                                                 ci_name := snd codeMatch |})
                            (codeRegex_matches (snd clMatch))) m) m l
            = foldl (fun m p => Map_set (fst p) (snd p) m) m (map f l)) as Hf.
  { induction l as [|x l IH]; intros m; [reflexivity|]. cbn [foldl map].
    rewrite IH. reflexivity. }
  rewrite Hf, Map_get_build. destruct (Map_get clId (rev (map f _)));
    reflexivity.
Qed.

(** X8. In the structure returned by [getDatasetStructure], a dimension
    other than the time dimension takes its codelist from the last
    declaration of its id, and its codes are the first 200 of the last
    codelist block of that id; a dimension whose codelist is not in the
    document has no codes, without an error. *)
Theorem structure_last_declaration_wins (datasetCode : jsstring) (env : Env)
    (st st' : State) (s : DatasetStructure) :
  getDatasetStructure datasetCode env st = (inr s, st') ->
  let xml := res_text (env_http env (structure_url datasetCode)) in
  let codelists :=
    map (fun clMatch =>
           (fst clMatch,
            map (fun codeMatch => {| ci_id := fst codeMatch;
                                     ci_name := snd codeMatch |})
                (codeRegex_matches (snd clMatch))))
        (clRegex_matches xml) in
  Forall (fun d =>
            (timeDimRegex_match xml = Some (dd_id d)
             /\ dd_values d = [time_hint])
            \/ exists clId : jsstring,
                 Map_get (dd_id d) (rev (dimRegex_matches xml)) = Some clId
                 /\ dd_values d
                    = take 200 (default [] (Map_get clId (rev codelists))))
         (ds_dimensions s).
Proof.
  intros Heq. cbn zeta.
  destruct (getDatasetStructure_inr _ _ _ _ _ Heq) as (backed & Hloop & Hdims).
  cbn zeta in Hloop, Hdims.
  set (xml := res_text (env_http env (structure_url datasetCode))) in *.
  set (codelists :=
         map (fun clMatch : jsstring * jsstring =>
                (fst clMatch,
                 map (fun codeMatch => {| ci_id := fst codeMatch;
                                          ci_name := snd codeMatch |})
                     (codeRegex_matches (snd clMatch))))
             (clRegex_matches xml)).
  assert (Forall (fun d =>
            (timeDimRegex_match xml = Some (dd_id d)
             /\ dd_values d = [time_hint])
            \/ exists clId : jsstring,
                 Map_get (dd_id d) (rev (dimRegex_matches xml)) = Some clId
                 /\ dd_values d
                    = take 200 (default [] (Map_get clId (rev codelists))))
           backed) as Hbacked.
  { apply Forall_forall. intros d Hd.
    apply list_elem_of_lookup_1 in Hd as [k Hk].
    destruct (Forall2_lookup_r _ _ _ _ _ Hloop Hk)
      as ([dimId clId] & Hentry & Hid & Hvalues).
    apply list_elem_of_lookup_2 in Hentry as Hin.
    cbn [fst snd] in Hid, Hvalues.
    right. exists clId. rewrite Hid, Hvalues. split.
    - apply Map_get_elem in Hin;
        [|apply (Map_build_NoDup _ []); constructor].
      unfold build_dimCodelistMap in Hin. rewrite Map_get_build in Hin.
      destruct (Map_get dimId (rev (dimRegex_matches xml)));
        [exact Hin|discriminate].
    - rewrite build_codelistMap_get. reflexivity. }
  rewrite Hdims.
  destruct (timeDimRegex_match xml) as [timeId|]; [|exact Hbacked].
  apply Forall_app. split; [exact Hbacked|].
  constructor; [|constructor]. left. split; reflexivity.
Qed.

End StructureEdges.

(** ** More on the data decoder *)

Lemma sort_insert_ascending {A : Type} (key : A -> Z) (x : A) (l : list A) :
  StronglySorted (fun a b => key a <= key b) l ->
  StronglySorted (fun a b => key a <= key b)
                 (sort_insert (fun a b => key a <=? key b) x l).
Proof.
  induction l as [|y l IH]; intros Hs; simpl.
  - repeat constructor.
  - apply StronglySorted_inv in Hs as [Hs Hy].
    destruct (Z.leb_spec (key x) (key y)) as [Hle|Hlt].
    + constructor; [constructor; assumption|].
      constructor; [exact Hle|].
      eapply Forall_impl; [exact Hy|]. intros z Hz. simpl in Hz. lia.
    + constructor; [apply IH, Hs|].
      rewrite (sort_insert_perm (fun a b => key a <=? key b) x l).
      constructor; [lia|exact Hy].
Qed.

Lemma stable_sort_ascending {A : Type} (key : A -> Z) (l : list A) :
  StronglySorted (fun a b => key a <= key b)
                 (stable_sort (fun a b => key a <=? key b) l).
Proof.
  induction l as [|x l IH]; [constructor|].
  apply sort_insert_ascending, IH.
Qed.

Lemma seq_ascending (a n : nat) :
  StronglySorted Z.le (map Z.of_nat (seq a n)).
Proof.
  revert a. induction n as [|n IH]; intros a; simpl; constructor.
  - apply IH.
  - apply Forall_forall. intros z Hz.
    change (z ∈ Z.of_nat <$> seq (S a) n) in Hz.
    apply list_elem_of_fmap in Hz as (j & -> & Hj).
    apply elem_of_seq in Hj. lia.
Qed.

Section DecoderEdges.

Context `{JsHost}.

(** X9. The categories of a decoded dimension are the entries of its
    index, each once, read at the positions of an order of the index that
    ascends by index value and, among equal values, by position in the
    enumeration: the sort is stable. When the index values are 0 to n-1,
    each once, the category at position [k] is the one whose index value is
    [k], however the index was keyed or enumerated. *)
Theorem categories_by_index (dimensionsData : gmap jsstring JsonDimension)
    (dimId : jsstring) :
  let dim := default empty_dimension (dimensionsData !! dimId) in
  let cats := rd_categories (decode_dimension dimensionsData dimId) in
  let value := fun p : nat => default 0 (snd <$> jd_index dim !! p) in
  (exists order : list nat,
     Forall2 (fun p c => fst <$> jd_index dim !! p = Some (cat_id c))
             order cats
     /\ (forall p, p ∈ order <-> (p < length (jd_index dim))%nat)
     /\ StronglySorted
          (fun p q => value p < value q
                      \/ (value p = value q /\ (p < q)%nat)) order)
  /\ (forall n : nat,
        map snd (jd_index dim) ≡ₚ map Z.of_nat (seq 0 n) ->
        forall k : nat, (k < n)%nat ->
          exists c, cats !! k = Some c
                    /\ (cat_id c, Z.of_nat k) ∈ jd_index dim).
Proof.
  cbn zeta. unfold decode_dimension. cbn [rd_categories].
  set (dim := default empty_dimension (dimensionsData !! dimId)).
  set (sorted := stable_sort (fun a b : jsstring * Z => snd a <=? snd b)
                             (jd_index dim)).
  set (mk := fun e : jsstring * Z =>
               {| cat_id := fst e;
                  cat_label := read_label (jd_labels dim) (fst e) |}).
  assert (sorted ≡ₚ jd_index dim) as Hperm by apply stable_sort_perm.
  assert (StronglySorted (fun a b : jsstring * Z => snd a <= snd b) sorted)
    as Hsorted by apply (stable_sort_ascending snd).
  split.
  - set (key := fun it : nat * (jsstring * Z) => - snd (snd it)).
    set (items := index_from 0 (jd_index dim)).
    set (isorted := stable_sort (key_desc key) items).
    assert (forall it, it ∈ isorted
                       <-> jd_index dim !! fst it = Some (snd it)) as Hitems.
    { intros [p e]. unfold isorted.
      rewrite (stable_sort_perm (key_desc key) items). unfold items.
      rewrite index_from_elem, Nat.sub_0_r. simpl. split; [tauto|].
      intros Hl. split; [lia|exact Hl]. }
    assert (map snd isorted = sorted) as Hproj.
    { unfold isorted, sorted, items.
      rewrite <- (index_from_snd 0 (jd_index dim)) at 2.
      symmetry. apply stable_sort_map. intros a b. unfold key_desc, key.
      destruct (Z.leb_spec (snd (snd a)) (snd (snd b))),
               (Z.leb_spec (- snd (snd b)) (- snd (snd a)));
        (reflexivity || lia). }
    exists (map fst isorted). split; [|split].
    + rewrite <- Hproj, map_map.
      apply Forall2_map_same. apply Forall_forall. intros it Hit.
      apply Hitems in Hit. rewrite Hit. reflexivity.
    + intros p. change (map fst isorted) with (fst <$> isorted).
      rewrite list_elem_of_fmap. split.
      * intros (it & -> & Hit). apply Hitems in Hit.
        eapply lookup_lt_Some, Hit.
      * intros Hlt. apply lookup_lt_is_Some in Hlt as [e He].
        exists (p, e). split; [reflexivity|]. apply Hitems. exact He.
    + apply (StronglySorted_map_elem (ranked key fst)).
      * apply stable_sort_ranked. apply index_from_sorted.
      * intros x y Hx Hy. apply Hitems in Hx. apply Hitems in Hy.
        rewrite Hx, Hy. unfold ranked, key. simpl. lia.
  - intros n Hvalid k Hk.
    assert (map snd sorted = map Z.of_nat (seq 0 n)) as Hvalues.
    { apply (StronglySorted_unique_strong Z.le).
      - intros x1 x2 _ _ H1 H2. lia.
      - apply (StronglySorted_map_elem (fun a b => snd a <= snd b));
          [exact Hsorted|]. intros x y _ _ Hxy. exact Hxy.
      - apply seq_ascending.
      - rewrite <- Hvalid. apply Permutation_map, Hperm. }
    assert (map snd sorted !! k = Some (Z.of_nat k)) as Hlook.
    { rewrite Hvalues. change (map ?f ?l) with (f <$> l).
      rewrite list_lookup_fmap, lookup_seq_lt by exact Hk. reflexivity. }
    change (map ?f ?l) with (f <$> l) in Hlook.
    rewrite list_lookup_fmap in Hlook.
    destruct (sorted !! k) as [[id v]|] eqn:He; [|discriminate].
    simpl in Hlook. injection Hlook as ->.
    eexists. split.
    + change (map ?f ?l) with (f <$> l). rewrite list_lookup_fmap, He.
      reflexivity.
    + cbn [cat_id fst]. rewrite <- Hperm.
      eapply list_elem_of_lookup_2, He.
Qed.

End DecoderEdges.

(** The digits of a linear index: for sizes that are not negative and an
    index below their product, the loop yields one in-range index for each
    dimension, and these weigh up to the linear index. *)
Lemma decode_indices_digits (s : list Z) :
  Forall (fun x => 0 <= x) s ->
  forall i, 0 <= i < product s ->
  exists idx : list Z,
    decode_indices (length s) s i = map Some idx
    /\ Forall2 (fun j sz => 0 <= j < sz) idx s
    /\ encode_index s idx = i.
Proof.
  induction s as [|x s IH] using rev_ind; intros Hs i Hi.
  - exists []. rewrite product_nil in Hi.
    split; [reflexivity|]. split; [constructor|simpl; lia].
  - apply Forall_app in Hs as [Hs Hx]. apply Forall_cons in Hx as [Hx _].
    rewrite product_app, product_cons, product_nil in Hi.
    pose proof (product_nonneg s Hs) as Hp.
    assert (0 < x) as Hx0 by nia.
    destruct (IH Hs (i / x)) as (idx & Hdec & Hrange & Henc).
    { split; [apply Z.div_pos; lia|]. apply Z.div_lt_upper_bound; nia. }
    pose proof (Forall2_length _ _ _ Hrange) as Hlen.
    pose proof (Z.rem_mod_nonneg i x ltac:(lia) Hx0) as Hrem.
    exists (idx ++ [i mod x]). split; [|split].
    + unfold decode_indices in *. rewrite length_app, Nat.add_1_r.
      cbn [decode_loop]. rewrite list_lookup_middle by reflexivity.
      cbn [js_rem js_floor_div].
      rewrite (proj2 (Z.eqb_neq x 0)) by lia.
      rewrite decode_loop_acc, decode_loop_app by lia.
      rewrite Hdec, Hrem, map_app. reflexivity.
    + apply Forall2_app; [exact Hrange|].
      constructor; [apply Z.mod_pos_bound; lia|constructor].
    + rewrite encode_index_snoc by lia. rewrite Henc.
      pose proof (Z.div_mod i x). lia.
Qed.

Section TableEdges.

Context `{JsHost}.

Lemma imap_index_label (dimensions : list ResultDimension) (idx : list Z) :
  Forall2 (fun dim j => 0 <= j < Z.of_nat (length (rd_categories dim)))
          dimensions idx ->
  imap (index_label dimensions) (map Some idx)
  = zip_with (fun dim j =>
                default [] (cat_label <$> rd_categories dim !! Z.to_nat j))
             dimensions idx
  /\ Forall2 (fun dim j => is_Some (rd_categories dim !! Z.to_nat j))
             dimensions idx.
Proof.
  induction 1 as [|dim j dimensions idx Hj _ [IHl IHs]].
  - split; [reflexivity|constructor].
  - assert (is_Some (rd_categories dim !! Z.to_nat j)) as Hsome
      by (apply lookup_lt_is_Some; lia).
    split; [|constructor; assumption].
    cbn [map zip_with]. rewrite imap_cons. f_equal.
    + unfold index_label, array_get. simpl.
      rewrite (proj2 (Z.ltb_ge j 0)) by lia.
      destruct Hsome as [c Hc]. rewrite Hc. reflexivity.
    + rewrite <- IHl. apply imap_ext. intros d x _. reflexivity.
Qed.

(** X10. In a cube whose sizes are the numbers of categories of its
    dimensions, the row of a value at a position below the product of the
    sizes carries, for each dimension, the label of the category at that
    dimension's digit of the position, never the bracketed fallback; the
    digits are in range and weigh up to the position. *)
Theorem row_labels_follow_digits (dimensions : list ResultDimension)
    (sizes : list Z) (i : nat) (v : num) :
  Forall2 (fun dim size => size = Z.of_nat (length (rd_categories dim)))
          dimensions sizes ->
  Z.of_nat i < product sizes ->
  exists idx : list Z,
    Forall2 (fun j size => 0 <= j < size) idx sizes
    /\ encode_index sizes idx = Z.of_nat i
    /\ Forall2 (fun dim j => is_Some (rd_categories dim !! Z.to_nat j))
               dimensions idx
    /\ format_row dimensions sizes i v
       = join (str " | ")
              (zip_with (fun dim j =>
                           default [] (cat_label
                                       <$> rd_categories dim !! Z.to_nat j))
                        dimensions idx)
         ++ str " | " ++ num_to_string v.
Proof.
  intros Hsizes Hi.
  assert (Forall (fun x => 0 <= x) sizes) as Hpos.
  { clear Hi. induction Hsizes as [|dim size ? ? -> _ IH]; constructor;
      [lia|exact IH]. }
  destruct (decode_indices_digits sizes Hpos (Z.of_nat i) ltac:(lia))
    as (idx & Hdec & Hrange & Henc).
  assert (Forall2 (fun dim j =>
                     0 <= j < Z.of_nat (length (rd_categories dim)))
                  dimensions idx) as Hdims.
  { clear Hdec Henc Hi Hpos. revert idx Hrange.
    induction Hsizes as [|dim size ? ? -> _ IH]; intros idx Hrange.
    - inversion Hrange. constructor.
    - inversion Hrange as [|j ? idx' ? Hj Hrest]; subst.
      constructor; [exact Hj|apply IH, Hrest]. }
  destruct (imap_index_label dimensions idx Hdims) as [Hlabels Hsome].
  exists idx. split; [exact Hrange|]. split; [exact Henc|].
  split; [exact Hsome|].
  unfold format_row. cbn zeta.
  rewrite (Forall2_length _ _ _ Hsizes), Hdec, Hlabels. reflexivity.
Qed.

Lemma repeat_dash_plain (n : nat) : 10%N ∉ repeat_str (str "-") n.
Proof.
  induction n as [|n IH]; simpl.
  - apply not_elem_of_nil.
  - intros Hin. apply elem_of_cons in Hin as [Hin|Hin];
      [discriminate|contradiction].
Qed.

(** X11. When the response names at least one dimension and declares at
    least one cell, the formatted table is the header, the separator line
    and one row for each present value, joined by line feeds, so the count
    of non-null values that the data tool reports is the number of rows;
    and when neither the header nor a row holds a line feed, splitting the
    text at line feeds gives these lines back: the text has two lines more
    than the reported count. *)
Theorem data_points_match_rows (datasetCode : jsstring) (json : JsonStat) :
  js_id json <> [] ->
  0 < product (js_size json) ->
  let r := decodeJsonStat datasetCode json in
  let header := format_header (r_dimensions r) in
  let rule := repeat_str (str "-") (length header) in
  let rows := map (fun c => format_row (r_dimensions r) (js_size json)
                                       (fst c) (snd c))
                  (present_cells (r_values r)) in
  r_formattedData r = join [10%N] (header :: rule :: rows)
  /\ length rows = nonNullCount (r_values r)
  /\ (Forall (fun line : jsstring => 10%N ∉ line) (header :: rows) ->
      split_on 10 (r_formattedData r) = header :: rule :: rows
      /\ length (split_on 10 (r_formattedData r))
         = (2 + nonNullCount (r_values r))%nat).
Proof.
  intros Hid Hsize. cbn zeta. unfold decodeJsonStat.
  cbn [r_formattedData r_dimensions r_values].
  set (dimensions := map (decode_dimension (js_dimension json)) (js_id json)).
  set (values := dense_values (js_value json) (product (js_size json))).
  assert (length (map (fun c => format_row dimensions (js_size json)
                                           (fst c) (snd c))
                      (present_cells values))
          = nonNullCount values) as Hcount.
  { rewrite length_map. unfold present_cells, nonNullCount.
    rewrite present_cells_from_length. f_equal.
    apply list_filter_iff. intros mx. symmetry. apply not_eq_None_Some. }
  assert (formatJsonStatData dimensions (js_size json) values
          = join [10%N]
              (format_header dimensions
               :: repeat_str (str "-") (length (format_header dimensions))
               :: map (fun c => format_row dimensions (js_size json)
                                           (fst c) (snd c))
                      (present_cells values))) as Htext.
  { unfold formatJsonStatData. rewrite format_lines_some; [reflexivity| |].
    - unfold dimensions. destruct (js_id json); [contradiction|discriminate].
    - intros Hnil. apply (f_equal length) in Hnil. unfold values in Hnil.
      rewrite dense_values_length in Hnil. simpl in Hnil. lia. }
  split; [exact Htext|]. split; [exact Hcount|].
  intros Hplain. apply Forall_cons in Hplain as [Hheader Hrows].
  assert (split_on 10 (formatJsonStatData dimensions (js_size json) values)
          = format_header dimensions
            :: repeat_str (str "-") (length (format_header dimensions))
            :: map (fun c => format_row dimensions (js_size json)
                                        (fst c) (snd c))
                   (present_cells values)) as Hsplit.
  { rewrite Htext. apply split_on_join; [discriminate|].
    constructor; [exact Hheader|].
    constructor; [apply repeat_dash_plain|exact Hrows]. }
  split; [exact Hsplit|]. rewrite Hsplit. cbn [length]. rewrite Hcount.
  reflexivity.
Qed.

End TableEdges.

(** ** More on the fetcher and the caches *)

Section CacheEdges.

Context `{JsHost}.

(** X12. With no timer lag the dispatch time of a call is the later of
    its clock reading and the last dispatch plus 350 ms; the delay is
    never negative, and it is at most 350 ms unless the clock reads less
    than the last recorded dispatch. *)
Theorem rate_delay_bounds (last : Z) (tk : Tick) :
  rate_dispatch last tk = Z.max (tick_now tk) (last + 350) + tick_lag tk
  /\ 0 <= rate_delay last tk
  /\ (last <= tick_now tk -> rate_delay last tk <= 350)
  /\ (tick_now tk < last -> 350 < rate_delay last tk).
Proof.
  unfold rate_dispatch, rate_delay, MIN_REQUEST_INTERVAL_MS.
  destruct (Z.ltb_spec (tick_now tk - last) 350); repeat split; lia.
Qed.

(** X13. In a sequence of awaited calls without timer lag in which each
    call reads the clock no earlier than the dispatch before it and less
    than 350 ms after it, every call waits and the dispatches are exactly
    350 ms apart: a caller faster than the interval gets one request per
    350 ms. *)
Theorem fast_caller_is_paced (calls : list (jsstring * Env)) (st : State) :
  (forall (k : nat) (c : jsstring * Env),
     calls !! k = Some c ->
     tick_lag (env_tick (snd c)) = 0
     /\ lastRequestTime st + 350 * Z.of_nat k <= tick_now (env_tick (snd c))
        < lastRequestTime st + 350 * (Z.of_nat k + 1)) ->
  dispatch_log calls st
  = map (fun k => lastRequestTime st + 350 * (Z.of_nat k + 1))
        (seq 0 (length calls)).
Proof.
  revert st. induction calls as [|[url env] calls IH]; intros st Hcalls;
    [reflexivity|].
  cbn [dispatch_log length seq map].
  destruct (Hcalls 0%nat (url, env) eq_refl) as [Hlag Hnow].
  cbn [snd] in Hlag, Hnow.
  assert (rate_dispatch (lastRequestTime st) (env_tick env)
          = lastRequestTime st + 350) as Hd.
  { unfold rate_dispatch, rate_delay, MIN_REQUEST_INTERVAL_MS.
    rewrite Hlag.
    destruct (Z.ltb_spec (tick_now (env_tick env) - lastRequestTime st) 350);
      lia. }
  unfold rateLimitedFetch. cbn [snd set_lastRequestTime lastRequestTime].
  rewrite Hd. f_equal.
  rewrite IH.
  - rewrite <- seq_shift, map_map.
    apply map_ext. intros k. simpl lastRequestTime. lia.
  - intros k c Hc. simpl lastRequestTime.
    destruct (Hcalls (S k) c Hc) as [Hl Hn]. split; [exact Hl|lia].
Qed.

(** X14. The two caches treat the age of exactly one hour differently:
    [searchDatasets] uses its cache only while the age is below one hour
    and dispatches a request at one hour, whereas [resolveGeoCode] still
    answers from its cache at one hour and refetches only beyond. *)
Theorem cache_age_boundary (query lang : jsstring) (limit : Z) (env : Env)
    (st : State) :
  TOC_CACHE_DURATION_MS = 3600000
  /\ (forall toc,
        cachedToc st = Some toc ->
        (env_now env - tocCachedAt st < 3600000 ->
         searchDatasets query lang limit env st
         = (inr (rank_entries toc query limit), st))
        /\ (3600000 <= env_now env - tocCachedAt st ->
            lastRequestTime (snd (searchDatasets query lang limit env st))
            = rate_dispatch (lastRequestTime st) (env_tick env)))
  /\ (forall cached,
        cachedGeoCodes st = Some cached ->
        (env_now env - geoCodesCachedAt st <= 3600000 ->
         resolveGeoCode query env st = (inr (resolve_in cached query), st))
        /\ (3600000 < env_now env - geoCodesCachedAt st ->
            lastRequestTime (snd (resolveGeoCode query env st))
            = rate_dispatch (lastRequestTime st) (env_tick env))).
Proof.
  split; [reflexivity|]. split.
  - intros toc Hc. unfold searchDatasets, fetchToc. rewrite Hc.
    unfold TOC_CACHE_DURATION_MS. split; intros Hage.
    + rewrite (proj2 (Z.ltb_lt _ _)) by lia. reflexivity.
    + rewrite (proj2 (Z.ltb_ge _ _)) by lia.
      unfold fetchToc_refresh, rateLimitedFetch.
      destruct (res_ok _); reflexivity.
  - intros cached Hc. unfold resolveGeoCode. rewrite Hc.
    unfold TOC_CACHE_DURATION_MS. split; intros Hage.
    + rewrite (proj2 (Z.ltb_ge _ _)) by lia. reflexivity.
    + rewrite (proj2 (Z.ltb_lt _ _)) by lia.
      unfold resolveGeoCode_refresh, rateLimitedFetch.
      destruct (res_ok _); reflexivity.
Qed.

(** X15. After a call of [resolveGeoCode] that downloaded the code list,
    every call made within the next hour of clock time answers from that
    list, whatever its query and whatever the network would answer, and
    leaves the state as it is. *)
Theorem geo_list_is_reused (q1 q2 : jsstring) (env1 env2 : Env) (st : State) :
  geo_is_fresh (env_now env1) st = false ->
  res_ok (env_http env1 geo_url) = true ->
  env_now env2 - env_now env1 <= TOC_CACHE_DURATION_MS ->
  let st1 := snd (resolveGeoCode q1 env1 st) in
  let codes := parseGeoCodes (res_text (env_http env1 geo_url)) in
  resolveGeoCode q1 env1 st = (inr (resolve_in codes q1), st1)
  /\ resolveGeoCode q2 env2 st1 = (inr (resolve_in codes q2), st1).
Proof.
  intros Hstale Hok Hage. cbn zeta.
  rewrite (resolveGeoCode_stale q1 env1 st Hstale).
  unfold resolveGeoCode_refresh, rateLimitedFetch. rewrite Hok.
  cbn [snd]. split; [reflexivity|].
  unfold resolveGeoCode. cbn [cachedGeoCodes geoCodesCachedAt set_geo].
  rewrite (proj2 (Z.ltb_ge _ _)) by lia. reflexivity.
Qed.

(** X16. A failed refresh of the catalogue is not remembered: the next
    search, if the cache is still not fresh, fetches again, and when that
    fetch succeeds it searches the catalogue just downloaded and caches
    it. *)
Theorem search_retries_after_failure (q1 q2 lang1 lang2 : jsstring)
    (lim1 lim2 : Z) (env1 env2 : Env) (st : State) :
  toc_is_fresh (env_now env1) st = false ->
  res_ok (env_http env1 (toc_url lang1)) = false ->
  toc_is_fresh (env_now env2) st = false ->
  res_ok (env_http env2 (toc_url lang2)) = true ->
  let st1 := snd (searchDatasets q1 lang1 lim1 env1 st) in
  let fetched := parseToc (res_text (env_http env2 (toc_url lang2))) in
  exists st2,
    searchDatasets q2 lang2 lim2 env2 st1
    = (inr (rank_entries fetched q2 lim2), st2)
    /\ cachedToc st2 = Some fetched
    /\ tocCachedAt st2 = env_now env2.
Proof.
  intros Hstale1 Hfail Hstale2 Hok. cbn zeta.
  destruct (fetchToc_refresh_failure lang1 env1 st Hfail)
    as (msg & st1 & Heq1 & Hc & Hat & _).
  assert (snd (searchDatasets q1 lang1 lim1 env1 st) = st1) as ->.
  { unfold searchDatasets. rewrite fetchToc_stale by exact Hstale1.
    rewrite Heq1. reflexivity. }
  assert (toc_is_fresh (env_now env2) st1 = false) as Hstale.
  { unfold toc_is_fresh in *. rewrite Hc, Hat. exact Hstale2. }
  destruct (fetchToc_refresh_success lang2 env2 st1 Hok)
    as (st2 & Heq2 & Hc2 & Hat2).
  exists st2. split; [|split; assumption].
  unfold searchDatasets. rewrite fetchToc_stale by exact Hstale.
  rewrite Heq2. reflexivity.
Qed.

End CacheEdges.

(** ** Requests that are never cached *)

Section LiveRequests.

Context `{JsHost}.

(** X17. A structure request, a data request and a preview always go to
    the network: each dispatches one request whatever the state holds,
    its outcome does not depend on the state, and it leaves both caches as
    they were. *)
Theorem live_requests_bypass_caches (reader : BodyReader)
    (datasetCode lang : jsstring) (filters : list (jsstring * FilterValue))
    (env : Env) (st : State) :
  let dispatched := rate_dispatch (lastRequestTime st) (env_tick env) in
  (snd (getDatasetStructure datasetCode env st)
   = set_lastRequestTime dispatched st
   /\ forall st0,
        fst (getDatasetStructure datasetCode env st0)
        = fst (getDatasetStructure datasetCode env st))
  /\ (snd (getDatasetData reader datasetCode filters lang env st)
      = set_lastRequestTime dispatched st
      /\ forall st0,
           fst (getDatasetData reader datasetCode filters lang env st0)
           = fst (getDatasetData reader datasetCode filters lang env st))
  /\ (snd (previewData reader datasetCode lang env st)
      = set_lastRequestTime dispatched st
      /\ forall st0,
           fst (previewData reader datasetCode lang env st0)
           = fst (previewData reader datasetCode lang env st))
  /\ same_caches st (set_lastRequestTime dispatched st).
Proof.
  cbn zeta.
  assert (forall f l st1,
            snd (getDatasetData reader datasetCode f l env st1)
            = set_lastRequestTime
                (rate_dispatch (lastRequestTime st1) (env_tick env)) st1
            /\ forall st0,
                 fst (getDatasetData reader datasetCode f l env st0)
                 = fst (getDatasetData reader datasetCode f l env st1))
    as Hdata.
  { intros f l st1. unfold getDatasetData, rateLimitedFetch.
    split; [|intros st0];
      destruct (res_ok _); cbn [negb]; try reflexivity;
      destruct (res_json reader _); reflexivity. }
  split; [|split; [apply Hdata|split; [apply Hdata|repeat split]]].
  unfold getDatasetStructure, rateLimitedFetch.
  split; [|intros st0]; destruct (res_ok _); cbn [negb]; try reflexivity;
    destruct (build_dimensions _); reflexivity.
Qed.



End LiveRequests.

(** * The further properties on the examples *)

Lemma hex_digit_plain (d : N) : hex_digit d <> 38%N /\ hex_digit d <> 61%N.
Proof. unfold hex_digit. destruct (N.ltb_spec d 10); lia. Qed.

Lemma example_form_encode_plain (s : jsstring) (c : N) :
  c ∈ example_form_encode s -> c <> 38%N /\ c <> 61%N.
Proof.
  unfold example_form_encode. rewrite list_elem_of_In, in_flat_map.
  intros (x & _ & Hc). destruct (form_safe x) eqn:Hsafe.
  - destruct Hc as [<-|[]].
    split; intros ->; vm_compute in Hsafe; discriminate.
  - destruct (N.eqb x 32).
    + destruct Hc as [<-|[]]. lia.
    + apply in_flat_map in Hc as (b & _ & Hb). unfold percent_byte in Hb.
      destruct Hb as [<-|[<-|[<-|[]]]]; [lia| |]; apply hex_digit_plain.
Qed.

(** A filter value that holds [&] and [=] stays one parameter. *)
Lemma query_keeps_parameters_apart_witness :
  map (split_on 61)
      (split_on 38
         (params_toString example_form_encode
            (build_params (H := example_host) (str "TSV") (str "en")
                          example_filters)))
  = [ [str "format"; str "TSV"]; [str "lang"; str "EN"];
      [str "geo"; str "DE"]; [str "geo"; str "FR"];
      [str "unit"; str "a%26b%3Dc"] ].
Proof.
  etransitivity.
  - apply (query_keeps_parameters_apart (H := example_host)
             example_form_encode (str "TSV") (str "en") example_filters).
    + intros s Hin. apply example_form_encode_plain in Hin as [Hne _].
      apply Hne. reflexivity.
    + intros s Hin. apply example_form_encode_plain in Hin as [_ Hne].
      apply Hne. reflexivity.
  - vm_compute. reflexivity.
Defined.

Lemma rank_entries_prefix_witness :
  rank_entries (H := example_host) example_toc (str "Demo_Pop") 1
  = take 1 (rank_entries (H := example_host) example_toc (str "Demo_Pop") 20).
Proof.
  apply (rank_entries_prefix (H := example_host) example_toc (str "Demo_Pop")
           1 20).
  lia.
Defined.

(** A query of two spaces has no term, and no code of the example
    catalogue equals it. *)
Lemma search_without_terms_witness :
  query_terms (H := example_host) (str "  ") = []
  /\ rank_entries (H := example_host) example_toc (str "  ") 20
     = take 20 (filter (fun e => @toLowerCase example_host (toc_code e)
                                 = @toLowerCase example_host (str "  "))
                       example_toc).
Proof.
  split; [vm_compute; reflexivity|].
  apply (search_without_terms (H := example_host) example_toc (str "  ") 20).
  - vm_compute. reflexivity.
  - lia.
Defined.

Lemma structure_last_declaration_wins_witness :
  let env := example_env 0 (response_ok (str "document")) in
  exists (s : DatasetStructure) (st' : State),
    getDatasetStructure (H := example_host) (str "demo_pjan") env initial_state
    = (inr s, st')
    /\ Forall (fun d =>
                 (Some (str "TIME_PERIOD") = Some (dd_id d)
                  /\ dd_values d = [time_hint])
                 \/ exists clId : jsstring,
                      Map_get (dd_id d)
                        (rev (@dimRegex_matches example_host (str "document")))
                      = Some clId
                      /\ dd_values d
                         = take 200 (default []
                             (Map_get clId
                                (rev (map (fun clMatch =>
                                   (fst clMatch,
                                    map (fun codeMatch =>
                                           {| ci_id := fst codeMatch;
                                              ci_name := snd codeMatch |})
                                        (@codeRegex_matches example_host
                                           (snd clMatch))))
                                   (@clRegex_matches example_host
                                      (str "document")))))))
              (ds_dimensions s).
Proof.
  cbn zeta. eexists _, _. split; [vm_compute; reflexivity|].
  eapply (structure_last_declaration_wins (H := example_host) (str "demo_pjan")
            (example_env 0 (response_ok (str "document"))) initial_state).
  vm_compute. reflexivity.
Defined.

(** The index of [geo] lists FR, of value 1, ahead of DE, of value 0: the
    categories are DE, then FR, and the one at position 0 is DE. *)
Lemma categories_by_index_witness :
  map cat_id (rd_categories (decode_dimension (H := example_host)
                               (js_dimension example_cube) (str "geo")))
  = [str "DE"; str "FR"]
  /\ exists c,
       rd_categories (decode_dimension (H := example_host)
                        (js_dimension example_cube) (str "geo"))
       !! 0%nat = Some c
       /\ (cat_id c, 0)
          ∈ jd_index (default empty_dimension
                              (js_dimension example_cube !! str "geo")).
Proof.
  split; [vm_compute; reflexivity|].
  destruct (categories_by_index (H := example_host)
              (js_dimension example_cube) (str "geo")) as [_ Hvalid].
  apply (Hvalid 2%nat); [|lia].
  vm_compute. apply perm_swap.
Defined.

(** The row of position 5 of the scenario: France, 2022. *)
Lemma row_labels_follow_digits_witness :
  exists idx : list Z,
    Forall2 (fun j size => 0 <= j < size) idx [2; 3]
    /\ encode_index [2; 3] idx = 5
    /\ format_row (H := example_host) (r_dimensions example_result) [2; 3]
                  5 142
       = join (str " | ")
              (zip_with (fun dim j =>
                           default [] (cat_label
                                       <$> rd_categories dim !! Z.to_nat j))
                        (r_dimensions example_result) idx)
         ++ str " | " ++ @num_to_string example_host 142.
Proof.
  destruct (row_labels_follow_digits (H := example_host)
              (r_dimensions example_result) [2; 3] 5 142)
    as (idx & Hrange & Henc & _ & Hrow).
  - repeat (constructor; [vm_compute; reflexivity|]). constructor.
  - vm_compute. reflexivity.
  - exists idx. split; [exact Hrange|]. split; [exact Henc|exact Hrow].
Defined.

Lemma data_points_match_rows_witness :
  nonNullCount (H := example_host) (r_values example_result) = 2%nat
  /\ length (split_on 10 (r_formattedData example_result)) = 4%nat.
Proof.
  destruct (data_points_match_rows (H := example_host) (str "DEMO")
              example_cube) as (_ & _ & Hlines).
  - vm_compute. discriminate.
  - vm_compute. reflexivity.
  - split; [vm_compute; reflexivity|].
    destruct Hlines as [_ Hlen]; [|exact Hlen].
    apply Forall_forall. intros line Hline Hin.
    vm_compute in Hline.
    repeat (apply elem_of_cons in Hline as [->|Hline];
            [vm_compute in Hin;
             repeat (apply elem_of_cons in Hin as [Hin|Hin];
                     [discriminate|]);
             inversion Hin|]).
    inversion Hline.
Defined.

(** Calls at 100, 400 and 750 ms are dispatched at 350, 700 and 1050 ms. *)
Lemma fast_caller_is_paced_witness :
  dispatch_log paced_calls initial_state = [350; 700; 1050].
Proof.
  etransitivity.
  - apply (fast_caller_is_paced paced_calls initial_state).
    intros [|[|[|k]]] c Hc; simpl in Hc; try discriminate;
      injection Hc as <-; simpl; lia.
  - reflexivity.
Defined.

(** At one hour after the caches were filled, the geo code list is still
    served from the cache. *)
Lemma cache_age_boundary_witness :
  resolveGeoCode (H := example_host) (str "at")
    (example_env 3601000 response_unavailable) warm_state
  = (inr (resolve_in (H := example_host) [austria] (str "at")), warm_state).
Proof.
  destruct (cache_age_boundary (H := example_host) (str "at") (str "en") 20
              (example_env 3601000 response_unavailable) warm_state)
    as (_ & _ & Hgeo).
  apply (Hgeo [austria]); [reflexivity|]. simpl. lia.
Defined.

Lemma geo_list_is_reused_witness :
  let env1 := example_env 1000 (response_ok (str "document")) in
  let env2 := example_env 5000 response_unavailable in
  let st1 := snd (resolveGeoCode (H := example_host) (str "ger") env1
                    initial_state) in
  resolveGeoCode (H := example_host) (str "bay") env2 st1
  = (inr (resolve_in (H := example_host)
            (parseGeoCodes (H := example_host) (str "document")) (str "bay")),
     st1).
Proof.
  cbn zeta.
  destruct (geo_list_is_reused (H := example_host) (str "ger") (str "bay")
              (example_env 1000 (response_ok (str "document")))
              (example_env 5000 response_unavailable) initial_state)
    as [_ Hsecond].
  - reflexivity.
  - reflexivity.
  - vm_compute. discriminate.
  - exact Hsecond.
Defined.

Lemma search_retries_after_failure_witness :
  let env1 := example_env 1000 response_unavailable in
  let env2 := example_env 2000 (response_ok example_catalogue) in
  let st1 := snd (searchDatasets (H := example_host) (str "gdp") (str "en") 20
                    env1 initial_state) in
  exists st2,
    searchDatasets (H := example_host) (str "gdp") (str "en") 20 env2 st1
    = (inr (rank_entries (H := example_host) (parseToc example_catalogue)
                         (str "gdp") 20), st2)
    /\ cachedToc st2 = Some (parseToc example_catalogue)
    /\ tocCachedAt st2 = 2000.
Proof.
  cbn zeta.
  apply (search_retries_after_failure (H := example_host) (str "gdp")
           (str "gdp") (str "en") (str "en") 20 20
           (example_env 1000 response_unavailable)
           (example_env 2000 (response_ok example_catalogue)) initial_state);
    reflexivity.
Defined.

